(** * Berserk NNUE evaluation core ([src/nn.c]): a shallow embedding

    The network of [nn.c] is a quantized two-layer perceptron.  Its hidden
    layer is kept as an [Accumulator] (one [int16_t] lane per hidden unit) for
    each perspective and ply; [RefreshAccumulator] recomputes it from the
    board, [ApplyUpdates] derives it from the previous ply, [OutputLayer]
    turns two accumulators into a score, [LoadDefaultNN] fills the weight
    arrays from the embedded resource.

    Conventions of the embedding:
    - a C integer of width [w] is a [Z]; conversions to [int16_t] and the
      [int] arithmetic of the kernels are written with their two's complement
      wrap-around ([to_int16], [to_int32]);
    - a C array is a [list Z] read by index with [rd]; an index outside the
      array (undefined in C) reads [0], a store outside changes nothing;
    - globals and the board are passed explicitly, and a function that can
      write to them returns them;
    - a [float] is a binary32 number of the Standard Library's [SpecFloat];
      the loader runs in the [option] monad, [None] being a step that C
      leaves undefined. *)

From Stdlib Require Import ZArith Lia Lqa Bool Strings.Byte String SpecFloat QArith Qround Qabs.
From stdpp Require Import base tactics option list list_numbers.

Local Open Scope Z_scope.

(** ** Machine integers *)

Definition wrap (w : Z) (x : Z) : Z := (x + 2 ^ (w - 1)) mod 2 ^ w - 2 ^ (w - 1).

(** Conversion of an [int] to [int16_t] (reduction modulo 2^16). *)
Definition to_int16 (x : Z) : Z := wrap 16 x.

(** [int] arithmetic: the result reduced to 32 bits. *)
Definition to_int32 (x : Z) : Z := wrap 32 x.

Definition in_int16 (x : Z) : Prop := -32768 <= x <= 32767.
Definition in_int32 (x : Z) : Prop := -2147483648 <= x <= 2147483647.

(** Modelled from the spec: the macro [max] of [util.h] is not part of the
    sources; it is the greater of its two [int] arguments, with which the
    kernels clamp a negative lane to zero. *)
Definition max (a b : Z) : Z := if a >? b then a else b.

(** ** Arrays *)

(** [a[i]]. *)
Definition rd (a : list Z) (i : Z) : Z :=
  if i <? 0 then 0 else default 0 (a !! Z.to_nat i).

Definition Zsum (l : list Z) : Z := foldr Z.add 0 l.

(** ** Data of [nn.h], [board.h] and [types.h] used by [nn.c] *)

Definition BitBoard := Z.
Definition Accumulator := list Z.

(** The process-wide network parameters declared at the top of [nn.c]. *)
Record Globals := {
  FEATURE_WEIGHTS : list Z;
  HIDDEN_BIASES : list Z;
  HIDDEN_WEIGHTS : list Z;
  OUTPUT_BIAS : Z;
  DEFAULT_NN_HASH : Z
}.

(** The fields of [Board] that [nn.c] reads or writes ([board.h] is not part
    of the sources; [pieces] and [occupancies] are as in [types.h]). *)
Record Board := {
  squares : list Z;
  pieces : list BitBoard;
  occupancies : list BitBoard;
  stm : Z;
  xstm : Z;
  ply : Z;
  accumulators : list (list Accumulator)
}.

(** The diff of one move for one perspective ([nn.h] is not part of the
    sources): [nr] removals and [na] additions, as [ApplyUpdates] reads them. *)
Record NNUpdate := {
  nr : Z;
  na : Z;
  removals : list Z;
  additions : list Z
}.

(** [enum { WHITE, BLACK, BOTH }] of [types.h]. *)
Definition WHITE : Z := 0.
Definition BLACK : Z := 1.
Definition BOTH : Z := 2.

(** Modelled from the spec: the macro [OccBB] of [board.h] is not part of the
    sources; it selects [board->occupancies[c]], the occupancy the Refresher
    enumerates. *)
Definition OccBB (board : Board) (c : Z) : BitBoard := rd (occupancies board) c.

(** ** Bit scans of [bits.h] *)

Fixpoint ctz_pos (p : positive) : Z :=
  match p with
  | xO q => 1 + ctz_pos q
  | _ => 0
  end.

(** Modelled from the spec: [lsb] of [bits.h] is not part of the sources; it
    is the index of the lowest set bit of a non-empty bitboard, the square the
    Refresher visits next (64 stands for the undefined scan of 0). *)
Definition lsb (bb : BitBoard) : Z :=
  match bb with
  | Zpos p => ctz_pos p
  | _ => 64
  end.

(** Modelled from the spec: [popAndGetLsb] of [bits.h] is not part of the
    sources; it returns [lsb] and clears that bit ([bb &= bb - 1]). *)
Definition popAndGetLsb (bb : BitBoard) : Z * BitBoard :=
  (lsb bb, Z.land bb (bb - 1)).

(** The squares of a bitboard, lowest first. *)
Fixpoint bits_pos (p : positive) (k : Z) : list Z :=
  match p with
  | xH => [k]
  | xO q => bits_pos q (k + 1)
  | xI q => k :: bits_pos q (k + 1)
  end.

Definition bits_from (bb : BitBoard) (k : Z) : list Z :=
  match bb with
  | Zpos p => bits_pos p k
  | _ => []
  end.

Definition bits (bb : BitBoard) : list Z := bits_from bb 0.

(** ** The embedded resource and its floats

    [EmbedData] is the list of the bytes of the resource.  A read outside the
    resource, and the conversion to an integer type of a value it cannot hold
    (or of an infinity or a NaN), are undefined in C: the loader is modelled
    in the [option] monad and such a step is [None]. *)

Definition byte_val (b : byte) : Z := Z.of_N (Byte.to_N b).

(** [EmbedData[i]]. *)
Definition Embed_at (EmbedData : list byte) (i : Z) : option byte :=
  if i <? 0 then None else EmbedData !! Z.to_nat i.

(** The [n] bytes at byte offset [p]. *)
Definition read_bytes (EmbedData : list byte) (p : Z) (n : nat) : option (list byte) :=
  if (0 <=? p) && (p + Z.of_nat n <=? Z.of_nat (length EmbedData))
  then Some (take n (drop (Z.to_nat p) EmbedData))
  else None.

(** The unsigned integer with the given bytes, lowest first (the byte order
    of the x86 targets of the vector kernels). *)
Fixpoint little_endian (bs : list byte) : Z :=
  match bs with
  | [] => 0
  | b :: bs' => Z.lor (byte_val b) (Z.shiftl (little_endian bs') 8)
  end.

(** The [n]-byte unsigned integer stored at byte offset [p]. *)
Definition le_load (EmbedData : list byte) (p : Z) (n : nat) : option Z :=
  little_endian <$> read_bytes EmbedData p n.

(** IEEE 754 binary32: 24 bits of precision, exponent of the infinities 128. *)
Definition prec32 : Z := 24.
Definition emax32 : Z := 128.

(** The [float] whose object representation is the 32-bit pattern [x]. *)
Definition float_of_bits (x : Z) : spec_float :=
  let s := Z.testbit x 31 in
  let e := (x / 2 ^ 23) mod 2 ^ 8 in
  let m := x mod 2 ^ 23 in
  if e =? 0 then
    match m with
    | Zpos p => S754_finite s p (-149)
    | _ => S754_zero s
    end
  else if e =? 255 then
    (if m =? 0 then S754_infinity s else S754_nan)
  else
    S754_finite s (Z.to_pos (m + 2 ^ 23)) (e - 150).

(** [*data] for a [float*] at byte offset [p]. *)
Definition read_float (EmbedData : list byte) (p : Z) : option spec_float :=
  x ← le_load EmbedData p 4; Some (float_of_bits x).

(** Conversion of an [int] to [float]. *)
Definition float_of_int (z : Z) : spec_float := binary_normalize prec32 emax32 z 0 false.

(** The product of two [float]s, rounded to [float]. *)
Definition fmul (x y : spec_float) : spec_float := SFmul prec32 emax32 x y.

(** The integer nearest to [m * 2^e], halfway cases up. *)
Definition round_mag (m : positive) (e : Z) : Z :=
  if 0 <=? e then Zpos m * 2 ^ e
  else (Zpos m + 2 ^ (- e - 1)) / 2 ^ (- e).

(** [round] of [math.h]: nearest integer, halfway cases away from zero.  The
    result is given as an integer; [None] stands for an infinity or a NaN,
    which [round] returns unchanged. *)
Definition c_round (x : spec_float) : option Z :=
  match x with
  | S754_zero _ => Some 0
  | S754_finite s m e => Some (cond_Zopp s (round_mag m e))
  | _ => None
  end.

(** Conversion of the [double] returned by [round] to [int16_t] and to
    [int32_t]. *)
Definition double_to_int16 (r : option Z) : option Z :=
  z ← r; if (-32768 <=? z) && (z <=? 32767) then Some z else None.

Definition double_to_int32 (r : option Z) : option Z :=
  z ← r; if (-2147483648 <=? z) && (z <=? 2147483647) then Some z else None.

(** [round(v * precision)]: [precision] is converted to [float], the
    product is a [float], [round] takes it as a [double] and the result is
    converted to [int16_t]. *)
Definition LoadWeight (v : spec_float) (precision : Z) : option Z :=
  double_to_int16 (c_round (fmul v (float_of_int precision))).

(** [for (j = 0; j < n; j++) A[j] = LoadWeight( *data++, precision)]: the [n]
    values stored, and [data] after the loop. *)
Fixpoint load_weights (EmbedData : list byte) (n : nat) (data : Z) (precision : Z)
    : option (list Z * Z) :=
  match n with
  | O => Some ([], data)
  | S n' =>
      v ← read_float EmbedData data;
      w ← LoadWeight v precision;
      '(ws, data') ← load_weights EmbedData n' (data + 4) precision;
      Some (w :: ws, data')
  end.

(** The test of the magic tag, with the short-circuit of [||]. *)
Definition magic_mismatch (EmbedData : list byte) : option bool :=
  b0 ← Embed_at EmbedData 0;
  if negb (Byte.eqb b0 "B") then Some true else
  b1 ← Embed_at EmbedData 1;
  if negb (Byte.eqb b1 "R") then Some true else
  b2 ← Embed_at EmbedData 2;
  if negb (Byte.eqb b2 "K") then Some true else
  b3 ← Embed_at EmbedData 3;
  Some (negb (Byte.eqb b3 "R")).

Definition nonstandard_net_message : string :=
  ("info string Berserk was not built using a standard net, use with caution!"
     ++ String (Ascii.ascii_of_nat 10) EmptyString)%string.

(** ** Reference values of the statements about the loader *)

(** The resource starts with the tag ['B','R','K','R']. *)
Definition has_magic (EmbedData : list byte) : bool :=
  match EmbedData with
  | b0 :: b1 :: b2 :: b3 :: _ =>
      Byte.eqb b0 "B" && Byte.eqb b1 "R" && Byte.eqb b2 "K" && Byte.eqb b3 "R"
  | _ => false
  end.

(** The [float] whose four bytes start at byte offset [off]. *)
Definition float_at (EmbedData : list byte) (off : Z) : spec_float :=
  float_of_bits (little_endian (take 4 (drop (Z.to_nat off) EmbedData))).

(** The [k]-th float after the 4-byte tag and the 8-byte hash. *)
Definition resource_float (EmbedData : list byte) (k : Z) : spec_float :=
  float_at EmbedData (12 + 4 * k).

(** Bytes 4 to 11 as a 64-bit integer. *)
Definition resource_hash (EmbedData : list byte) : Z :=
  little_endian (take 8 (drop 4 EmbedData)).

(** The rational [(-1)^s * m * 2^e] a finite [float] stands for. *)
Definition SF2Q (x : spec_float) : Q :=
  match x with
  | S754_finite s m e =>
      match e with
      | Zneg q => Qmake (cond_Zopp s (Zpos m)) (2 ^ q)%positive
      | _ => inject_Z (cond_Zopp s (Zpos m) * 2 ^ e)
      end
  | _ => 0%Q
  end.

Definition is_finite (x : spec_float) : bool :=
  match x with
  | S754_zero _ | S754_finite _ _ _ => true
  | _ => false
  end.

(** Nearest integer of a rational, halfway cases away from zero. *)
Definition Qround_away (x : Q) : Z :=
  if Qle_bool 0 x then Qfloor (x + (1 # 2))%Q else Qceiling (x - (1 # 2))%Q.

(** The quantization the spec describes: multiply by the precision, round. *)
Definition quantize (x : Q) (precision : Z) : Z := Qround_away (x * inject_Z precision)%Q.

Definition dequantize (q : Z) (precision : Z) : Q := (inject_Z q / inject_Z precision)%Q.

(** [v] is a number whose quantization at [precision] fits the 16-bit, or
    the 32-bit, integer it is stored in. *)
Definition quantizes16 (v : spec_float) (precision : Z) : Prop :=
  is_finite v = true /\ in_int16 (quantize (SF2Q v) precision).

Definition quantizes32 (v : spec_float) (precision : Z) : Prop :=
  is_finite v = true /\ in_int32 (quantize (SF2Q v) precision).

(** ** A small network, position and resource for the examples

    Hidden width 16 and four features: row [f] of the feature weights is
    [f + 1] in every lane and every hidden bias is 10.  The position has the
    white king (piece 10) on square 4 and the black king (piece 11) on
    square 60. *)

Definition ex_weights : Globals :=
  {| FEATURE_WEIGHTS := replicate 16 1 ++ replicate 16 2 ++ replicate 16 3 ++ replicate 16 4;
     HIDDEN_BIASES := replicate 16 10;
     HIDDEN_WEIGHTS := replicate 16 300 ++ replicate 16 (-200);
     OUTPUT_BIAS := 100;
     DEFAULT_NN_HASH := 0 |}.

Definition ex_KING : Z := 5.

Definition ex_PieceBB (board : Board) (pc c : Z) : BitBoard := rd (pieces board) (2 * pc + c).

Definition ex_FeatureIdx (pc sq kingSq perspective : Z) : Z := (pc + perspective) mod 4.

Definition ex_board : Board :=
  {| squares := replicate 4 12 ++ [10] ++ replicate 55 12 ++ [11] ++ replicate 3 12;
     pieces := replicate 10 0 ++ [2 ^ 4; 2 ^ 60];
     occupancies := [2 ^ 4; 2 ^ 60; 2 ^ 4 + 2 ^ 60];
     stm := 0;
     xstm := 1;
     ply := 1;
     accumulators := [[replicate 16 13; replicate 16 0]; [replicate 16 13; replicate 16 0]] |}.

(** A quiet move: feature 1 off, feature 2 on. *)
Definition ex_move : NNUpdate :=
  {| nr := 1; na := 1; removals := [1; 0]; additions := [2; 0] |}.

(** The same position with three plies of history, whose ply 0 holds for
    White the sum of the features 1 and 3 and for Black that of 2 and 0. *)
Definition ex_history : Board :=
  {| squares := squares ex_board;
     pieces := pieces ex_board;
     occupancies := occupancies ex_board;
     stm := 0;
     xstm := 1;
     ply := 1;
     accumulators := [[replicate 16 16; replicate 16 0; replicate 16 0];
                      [replicate 16 14; replicate 16 0; replicate 16 0]] |}.

(** The same move seen by Black: feature 2 off, feature 3 on. *)
Definition ex_reply : NNUpdate :=
  {| nr := 1; na := 1; removals := [2; 0]; additions := [3; 0] |}.

(** The same change as [ex_move] with feature 3 taken off and put back. *)
Definition ex_detour : NNUpdate :=
  {| nr := 2; na := 2; removals := [1; 3]; additions := [2; 3] |}.

(** A diff with no removal and one addition. *)
Definition ex_addition_only : NNUpdate :=
  {| nr := 0; na := 1; removals := [0; 0]; additions := [2; 0] |}.

(** Weights and an accumulator at the top of the 16-bit range. *)
Definition ex_saturated : Globals :=
  {| FEATURE_WEIGHTS := [];
     HIDDEN_BIASES := [];
     HIDDEN_WEIGHTS := replicate 32 32767;
     OUTPUT_BIAS := 0;
     DEFAULT_NN_HASH := 0 |}.

Definition ex_top : Accumulator := replicate 16 32767.

(** A resource for one feature and one hidden unit: the hash bytes 1 to 8 and
    the floats 1.5, -0.25, 0.5, -1.0 and 2.0 behind the given tag. *)
Definition ex_resource (tag : list byte) : list byte :=
  tag ++ [x01; x02; x03; x04; x05; x06; x07; x08]
      ++ [x00; x00; xc0; x3f]
      ++ [x00; x00; x80; xbe]
      ++ [x00; x00; x00; x3f]
      ++ [x00; x00; x80; xbf]
      ++ [x00; x00; x00; x40].

(** The network that resource holds. *)
Definition ex_network : Globals :=
  {| FEATURE_WEIGHTS := [48];
     HIDDEN_BIASES := [-8];
     HIDDEN_WEIGHTS := [256; -512];
     OUTPUT_BIAS := 1024;
     DEFAULT_NN_HASH := 0x0807060504030201 |}.

Definition ex_standard_tag : list byte := ["B"; "R"; "K"; "R"]%byte.
Definition ex_other_tag : list byte := ["X"; "R"; "K"; "R"]%byte.

Section NN.

(** Constants, macros and functions of headers that are not part of the
    sources, as parameters. *)
Variable N_FEATURES : Z.
Variable N_HIDDEN : Z.
Variable KING : Z.
Variable PieceBB : Board -> Z -> Z -> BitBoard.
Variable FeatureIdx : Z -> Z -> Z -> Z -> Z.

Definition QUANTIZATION_PRECISION_IN : Z := 32.
Definition QUANTIZATION_PRECISION_OUT : Z := 512.

(** [for (int i = 0; i < N_HIDDEN; i++) out[i] = f i]. *)
Definition lanes (f : Z -> Z) : Accumulator := f <$> seqZ 0 N_HIDDEN.

(** [memcpy(dst, src, sizeof(Accumulator))]. *)
Definition memcpy_acc (src : list Z) : Accumulator := lanes (rd src).

(** ** RefreshAccumulator *)

(** [for (i...) accumulator[i] += FEATURE_WEIGHTS[feature * N_HIDDEN + i]]. *)
Definition add_row (G : Globals) (accumulator : Accumulator) (feature : Z) : Accumulator :=
  lanes (fun i => to_int16 (rd accumulator i + rd (FEATURE_WEIGHTS G) (feature * N_HIDDEN + i))).

(** [for (j...) output[j] -= FEATURE_WEIGHTS[feature * N_HIDDEN + j]]. *)
Definition sub_row (G : Globals) (accumulator : Accumulator) (feature : Z) : Accumulator :=
  lanes (fun i => to_int16 (rd accumulator i - rd (FEATURE_WEIGHTS G) (feature * N_HIDDEN + i))).

Definition square_feature (board : Board) (kingSq perspective sq : Z) : Z :=
  let pc := rd (squares board) sq in
  FeatureIdx pc sq kingSq perspective.

(** The [while (occ)] loop; a [BitBoard] has 64 bits, so 64 rounds empty it. *)
Fixpoint refresh_loop (fuel : nat) (G : Globals) (board : Board) (kingSq perspective : Z)
    (occ : BitBoard) (accumulator : Accumulator) : Accumulator :=
  match fuel with
  | O => accumulator
  | S fuel' =>
      if occ =? 0 then accumulator
      else
        let '(sq, occ') := popAndGetLsb occ in
        let feature := square_feature board kingSq perspective sq in
        refresh_loop fuel' G board kingSq perspective occ' (add_row G accumulator feature)
  end.

(** The first argument is the content of the destination before the call. *)
Definition RefreshAccumulator (G : Globals) (accumulator : Accumulator) (board : Board)
    (perspective : Z) : Accumulator :=
  let kingSq := lsb (PieceBB board KING perspective) in
  let accumulator := memcpy_acc (HIDDEN_BIASES G) in
  let occ := OccBB board BOTH in
  refresh_loop 64 G board kingSq perspective occ accumulator.

(** ** OutputLayer: scalar build *)

Definition OutputLayer_scalar (G : Globals) (stm xstm : Accumulator) : Z :=
  let result := to_int32 (OUTPUT_BIAS G * QUANTIZATION_PRECISION_IN) in
  let result :=
    foldl (fun result i =>
             let result :=
               to_int32 (result + to_int32 (max (rd stm i) 0 * rd (HIDDEN_WEIGHTS G) i)) in
             to_int32 (result + to_int32 (max (rd xstm i) 0 * rd (HIDDEN_WEIGHTS G) (i + N_HIDDEN))))
          result (seqZ 0 N_HIDDEN) in
  result ÷ QUANTIZATION_PRECISION_IN ÷ QUANTIZATION_PRECISION_OUT.

(** ** OutputLayer: vector builds

    A vector register is the list of its lanes, lowest first: 16-bit lanes
    where the kernel loads accumulators and weights, 32-bit lanes for the
    partial sums. *)

(** [*(__m256i* )&a[off]] and [*(__m128i* )&a[off]]: [width] consecutive [int16_t]. *)
Definition vload (a : list Z) (off width : Z) : list Z :=
  (fun k => rd a (off + k)) <$> seqZ 0 width.

Definition setzero (n : nat) : list Z := replicate n 0.

(** [_mm256_max_epi16], [_mm_max_epi16]. *)
Definition max_epi16 (a b : list Z) : list Z := zip_with max a b.

(** [_mm256_madd_epi16], [_mm_madd_epi16]: products of adjacent pairs of
    16-bit lanes, added into one 32-bit lane. *)
Fixpoint madd_epi16 (a b : list Z) : list Z :=
  match a, b with
  | a0 :: a1 :: a', b0 :: b1 :: b' => to_int32 (a0 * b0 + a1 * b1) :: madd_epi16 a' b'
  | _, _ => []
  end.

(** [_mm256_add_epi32], [_mm_add_epi32]. *)
Definition add_epi32 (a b : list Z) : list Z :=
  zip_with (fun x y => to_int32 (x + y)) a b.

(** [_mm_srli_si128] on four 32-bit lanes, for a byte count that is a
    multiple of 4. *)
Definition srli_si128 (a : list Z) (imm8 : Z) : list Z :=
  let n := Z.to_nat (imm8 / 4) in
  drop n a ++ replicate (Nat.min n (length a)) 0.

Definition cvtsi128_si32 (a : list Z) : Z := rd a 0.

(** [_mm256_castsi256_si128]: the low four 32-bit lanes. *)
Definition castsi256_si128 (a : list Z) : list Z := take 4 a.

(** [_mm256_extractf128_si256]: the 128-bit half selected by [imm8]. *)
Definition extractf128_si256 (a : list Z) (imm8 : Z) : list Z :=
  take 4 (drop (Z.to_nat (4 * imm8)) a).

Definition WIDTH_AVX2 : Z := 32 / 2.
Definition CHUNKS_AVX2 : Z := N_HIDDEN / WIDTH_AVX2.

(** Round [j] of the accumulation loop, the same in both vector builds but
    for the width: [s] holds the registers [s0] and [s1]. *)
Definition vec_step (G : Globals) (width : Z) (stm xstm : Accumulator)
    (s : list Z * list Z) (j : Z) : list Z * list Z :=
  let zero := setzero (Z.to_nat width) in
  let ac0 := max_epi16 (vload stm (j * width) width) zero in
  let ac1 := max_epi16 (vload xstm (j * width) width) zero in
  (add_epi32 (fst s) (madd_epi16 ac0 (vload (HIDDEN_WEIGHTS G) (j * width) width)),
   add_epi32 (snd s) (madd_epi16 ac1 (vload (HIDDEN_WEIGHTS G) (j * width + N_HIDDEN) width))).

Definition OutputLayer_avx2 (G : Globals) (stm xstm : Accumulator) : Z :=
  let result := to_int32 (OUTPUT_BIAS G * QUANTIZATION_PRECISION_IN) in
  let s0 := setzero 8 in
  let s1 := setzero 8 in
  let '(s0, s1) := foldl (vec_step G WIDTH_AVX2 stm xstm) (s0, s1) (seqZ 0 CHUNKS_AVX2) in
  let r8 := add_epi32 s0 s1 in
  let r4 := add_epi32 (castsi256_si128 r8) (extractf128_si256 r8 1) in
  let r2 := add_epi32 r4 (srli_si128 r4 8) in
  let r1 := add_epi32 r2 (srli_si128 r2 4) in
  let result := to_int32 (result + cvtsi128_si32 r1) in
  result ÷ QUANTIZATION_PRECISION_IN ÷ QUANTIZATION_PRECISION_OUT.

Definition WIDTH_SSE : Z := 16 / 2.

Definition OutputLayer_sse (G : Globals) (stm xstm : Accumulator) : Z :=
  let result := to_int32 (OUTPUT_BIAS G * QUANTIZATION_PRECISION_IN) in
  let s0 := setzero 4 in
  let s1 := setzero 4 in
  let '(s0, s1) := foldl (vec_step G WIDTH_SSE stm xstm) (s0, s1) (seqZ 0 (N_HIDDEN / 8)) in
  let r4 := add_epi32 s0 s1 in
  let r2 := add_epi32 r4 (srli_si128 r4 8) in
  let r1 := add_epi32 r2 (srli_si128 r2 4) in
  let result := to_int32 (result + cvtsi128_si32 r1) in
  result ÷ QUANTIZATION_PRECISION_IN ÷ QUANTIZATION_PRECISION_OUT.

(** The build selects one kernel ([__AVX2__], else [__SSE__], else scalar). *)
Inductive Build := AVX2 | SSE | Scalar.

Definition OutputLayer (b : Build) (G : Globals) (stm xstm : Accumulator) : Z :=
  match b with
  | AVX2 => OutputLayer_avx2 G stm xstm
  | SSE => OutputLayer_sse G stm xstm
  | Scalar => OutputLayer_scalar G stm xstm
  end.

(** ** Predict

    [stm0] and [xstm0] are the contents of the two local accumulators when
    the function is entered; the memory it leaves is returned next to the
    score. *)
Definition Predict (b : Build) (G : Globals) (board : Board) (stm0 xstm0 : Accumulator)
    : Z * (Globals * Board) :=
  let stm_acc := RefreshAccumulator G stm0 board (stm board) in
  let xstm_acc := RefreshAccumulator G xstm0 board (xstm board) in
  (OutputLayer b G stm_acc xstm_acc, (G, board)).

(** ** ApplyUpdates *)

(** [board->accumulators[p][q]]. *)
Definition acc_at (board : Board) (p q : Z) : Accumulator :=
  if (p <? 0) || (q <? 0) then []
  else default [] (row ← accumulators board !! Z.to_nat p; row !! Z.to_nat q).

(** The board after [a] is stored in [board->accumulators[p][q]]. *)
Definition set_acc (board : Board) (p q : Z) (a : Accumulator) : Board :=
  if (p <? 0) || (q <? 0) then board
  else
    {| squares := squares board;
       pieces := pieces board;
       occupancies := occupancies board;
       stm := stm board;
       xstm := xstm board;
       ply := ply board;
       accumulators := alter (fun row => <[Z.to_nat q := a]> row) (Z.to_nat p) (accumulators board) |}.

(** The first loop reads [prev] and writes [output]; the later ones update
    [output] in place.  The globals and the board after the call are
    returned. *)
Definition ApplyUpdates (G : Globals) (board : Board) (stm : Z) (updates : NNUpdate)
    : Globals * Board :=
  let prev := acc_at board stm (ply board - 1) in
  let output :=
    if nr updates =? 0 then memcpy_acc prev
    else
      let output := sub_row G prev (rd (removals updates) 0) in
      let output :=
        foldl (fun output i => sub_row G output (rd (removals updates) i))
              output (seqZ 1 (nr updates - 1)) in
      foldl (fun output i => add_row G output (rd (additions updates) i))
            output (seqZ 0 (na updates))
  in
  (G, set_acc board stm (ply board) output).

(** ** LoadDefaultNN

    The arrays are filled over their whole declared length, so the globals
    after the call do not depend on the globals before it; [stdout] is the
    list of the lines printed so far. *)
Definition LoadDefaultNN (EmbedData : list byte) (stdout : list string)
    : option (Globals * list string) :=
  mismatch ← magic_mismatch EmbedData;
  let stdout := if mismatch : bool then stdout ++ [nonstandard_net_message] else stdout in
  hash ← le_load EmbedData 4 8;
  let data := 4 * 3 in
  '(fw, data) ← load_weights EmbedData (Z.to_nat (N_FEATURES * N_HIDDEN)) data QUANTIZATION_PRECISION_IN;
  '(hb, data) ← load_weights EmbedData (Z.to_nat N_HIDDEN) data QUANTIZATION_PRECISION_IN;
  '(hw, data) ← load_weights EmbedData (Z.to_nat (N_HIDDEN * 2)) data QUANTIZATION_PRECISION_OUT;
  v ← read_float EmbedData data;
  ob ← double_to_int32 (c_round (fmul v (float_of_int QUANTIZATION_PRECISION_OUT)));
  Some ({| FEATURE_WEIGHTS := fw;
           HIDDEN_BIASES := hb;
           HIDDEN_WEIGHTS := hw;
           OUTPUT_BIAS := ob;
           DEFAULT_NN_HASH := hash |}, stdout).

(** ** Reference values of the statements *)

(** Lane [i] of the weight row of a feature. *)
Definition row_lane (G : Globals) (feature i : Z) : Z :=
  rd (FEATURE_WEIGHTS G) (feature * N_HIDDEN + i).

(** The integer [hiddenBiases[i]] plus the sum of lane [i] of the rows of
    [features]. *)
Definition exact_lane (G : Globals) (features : list Z) (i : Z) : Z :=
  rd (HIDDEN_BIASES G) i + Zsum ((fun f => row_lane G f i) <$> features).

(** [hiddenBiases] plus the rows of [features], in the 16-bit lanes of an
    Accumulator. *)
Definition feature_sum (G : Globals) (features : list Z) : Accumulator :=
  lanes (fun i => to_int16 (exact_lane G features i)).

(** [sqs] enumerates the occupied squares of the board, each once, in any
    order. *)
Definition enumerates_occupied (board : Board) (sqs : list Z) : Prop :=
  NoDup sqs /\ forall sq, sq ∈ sqs <-> Z.testbit (OccBB board BOTH) sq = true.

(** The features of the squares [sqs] seen from [perspective]. *)
Definition board_features (board : Board) (perspective : Z) (sqs : list Z) : list Z :=
  square_feature board (lsb (PieceBB board KING perspective)) perspective <$> sqs.

(** The removal and addition lists of a diff: its first [nr] removals and
    first [na] additions. *)
Definition removed_features (updates : NNUpdate) : list Z :=
  rd (removals updates) <$> seqZ 0 (nr updates).

Definition added_features (updates : NNUpdate) : list Z :=
  rd (additions updates) <$> seqZ 0 (na updates).

(** The diff describes the change from the features [before] the move to
    the features [after] it: as multisets, [after] is [before] without the
    removals and with the additions. *)
Definition describes_change (updates : NNUpdate) (before after : list Z) : Prop :=
  removed_features updates ++ after ≡ₚ added_features updates ++ before.

(** [board->accumulators[p][q]] is an element of the allocated history. *)
Definition valid_slot (board : Board) (p q : Z) : Prop :=
  0 <= p /\ 0 <= q /\
  exists row, accumulators board !! Z.to_nat p = Some row /\ (Z.to_nat q < length row)%nat.

(** A list that has the [N_HIDDEN] lanes of an [Accumulator]. *)
Definition full_width (a : Accumulator) : Prop := length a = Z.to_nat N_HIDDEN.

(** The dot product of the rectified lanes of [a] with the [N_HIDDEN]
    entries of [HIDDEN_WEIGHTS] from index [off] on. *)
Definition relu_dot (G : Globals) (a : Accumulator) (off : Z) : Z :=
  Zsum ((fun i => max (rd a i) 0 * rd (HIDDEN_WEIGHTS G) (i + off)) <$> seqZ 0 N_HIDDEN).

(** [outputBias * inputPrecision] plus the two dot products, as an integer. *)
Definition output_total (G : Globals) (stm xstm : Accumulator) : Z :=
  OUTPUT_BIAS G * QUANTIZATION_PRECISION_IN + relu_dot G stm 0 + relu_dot G xstm N_HIDDEN.

(** The part of [relu_dot] that one vector round covers: [width] lanes from
    lane [from] on. *)
Definition chunk_dot (G : Globals) (a : Accumulator) (off from width : Z) : Z :=
  Zsum ((fun i => max (rd a i) 0 * rd (HIDDEN_WEIGHTS G) (i + off)) <$> seqZ from width).

(** ** Further reference values *)

(** An [Accumulator] as its type has it: [N_HIDDEN] lanes, each an
    [int16_t]. *)
Definition is_accumulator (a : Accumulator) : Prop :=
  full_width a /\ Forall in_int16 a.

(** The diff that takes a move back: what the move added is removed and what
    it removed is added. *)
Definition undo_update (updates : NNUpdate) : NNUpdate :=
  {| nr := na updates;
     na := nr updates;
     removals := additions updates;
     additions := removals updates |}.

(** The board with [board->ply] set to [q]. *)
Definition with_ply (board : Board) (q : Z) : Board :=
  {| squares := squares board;
     pieces := pieces board;
     occupancies := occupancies board;
     stm := stm board;
     xstm := xstm board;
     ply := q;
     accumulators := accumulators board |}.

(** The lanes of [a] clamped at zero. *)
Definition rectified (a : Accumulator) : Accumulator := (fun x => max x 0) <$> a.

(** The number of floats of the resource and the number of its bytes. *)
Definition float_count : Z := N_FEATURES * N_HIDDEN + N_HIDDEN + N_HIDDEN * 2 + 1.
Definition resource_size : Z := 12 + 4 * float_count.


(** The sum of the magnitudes of the [N_HIDDEN * 2] output weights. *)
Definition weight_mass (G : Globals) : Z :=
  Zsum ((fun i => Z.abs (rd (HIDDEN_WEIGHTS G) i)) <$> seqZ 0 (N_HIDDEN * 2)).

(** The hidden width is a whole number of rounds of the kernel of a build. *)
Definition whole_rounds (b : Build) : Prop :=
  match b with
  | AVX2 => (16 | N_HIDDEN)
  | SSE => (8 | N_HIDDEN)
  | Scalar => True
  end.
(** * Properties *)

Set Default Proof Using "Type".


Lemma wrap_add_l w a b : wrap w (wrap w a + b) = wrap w (a + b).
Proof.
  unfold wrap. f_equal.
  replace ((a + 2 ^ (w - 1)) `mod` 2 ^ w - 2 ^ (w - 1) + b + 2 ^ (w - 1))
    with ((a + 2 ^ (w - 1)) `mod` 2 ^ w + b) by lia.
  rewrite Zplus_mod_idemp_l. f_equal. lia.
Qed.

Lemma wrap_add_r w a b : wrap w (a + wrap w b) = wrap w (a + b).
Proof. rewrite (Z.add_comm a), wrap_add_l. f_equal. lia. Qed.

Lemma wrap_sub_l w a b : wrap w (wrap w a - b) = wrap w (a - b).
Proof. unfold Z.sub. apply wrap_add_l. Qed.

Lemma wrap_shift w x k : wrap w (x + k * 2 ^ w) = wrap w x.
Proof.
  unfold wrap. f_equal.
  replace (x + k * 2 ^ w + 2 ^ (w - 1)) with (x + 2 ^ (w - 1) + k * 2 ^ w) by lia.
  apply Z_mod_plus_full.
Qed.

Lemma to_int16_id x : in_int16 x -> to_int16 x = x.
Proof.
  unfold in_int16, to_int16, wrap. intros H.
  change (2 ^ (16 - 1)) with 32768. change (2 ^ 16) with 65536.
  rewrite Z.mod_small; lia.
Qed.

Lemma to_int32_id x : in_int32 x -> to_int32 x = x.
Proof.
  unfold in_int32, to_int32, wrap. intros H.
  change (2 ^ (32 - 1)) with 2147483648. change (2 ^ 32) with 4294967296.
  rewrite Z.mod_small; lia.
Qed.

Lemma to_int32_range x : in_int32 (to_int32 x).
Proof.
  unfold in_int32, to_int32, wrap.
  change (2 ^ (32 - 1)) with 2147483648. change (2 ^ 32) with 4294967296.
  pose proof (Z.mod_pos_bound (x + 2147483648) 4294967296). lia.
Qed.

Lemma to_int16_range x : in_int16 (to_int16 x).
Proof.
  unfold in_int16, to_int16, wrap.
  change (2 ^ (16 - 1)) with 32768. change (2 ^ 16) with 65536.
  pose proof (Z.mod_pos_bound (x + 32768) 65536). lia.
Qed.

Lemma rd_in_int16 a i : Forall in_int16 a -> in_int16 (rd a i).
Proof.
  intros Ha. unfold rd. destruct (i <? 0); [unfold in_int16; lia|].
  destruct (a !! Z.to_nat i) as [x|] eqn:E; simpl; [|unfold in_int16; lia].
  eapply Forall_lookup_1; eauto.
Qed.

Lemma length_lanes f : length (lanes f) = Z.to_nat N_HIDDEN.
Proof. unfold lanes. by rewrite length_fmap, length_seqZ. Qed.

Lemma rd_lanes f i : 0 <= i < N_HIDDEN -> rd (lanes f) i = f i.
Proof.
  intros Hi. unfold rd, lanes.
  destruct (i <? 0) eqn:E; [lia|].
  rewrite list_lookup_fmap, lookup_seqZ_lt by lia. simpl. f_equal. lia.
Qed.

Lemma lanes_ext f g :
(forall i, 0 <= i < N_HIDDEN -> f i = g i) -> lanes f = lanes g.
Proof.
  intros H. unfold lanes. apply list_fmap_ext.
  intros k x Hk. apply lookup_seqZ in Hk. apply H. lia.
Qed.

Lemma memcpy_acc_id (a : Accumulator) :
  length a = Z.to_nat N_HIDDEN -> memcpy_acc a = a.
Proof.
  intros Hl. apply list_eq_same_length with (Z.to_nat N_HIDDEN);
    [done | apply length_lanes |].
  intros i x y Hi Hx Hy. unfold memcpy_acc, lanes in Hx.
  rewrite list_lookup_fmap, lookup_seqZ_lt in Hx by lia. simpl in Hx.
  unfold rd in Hx. destruct (0 + Z.of_nat i <? 0) eqn:E; [lia|].
  replace (Z.to_nat (0 + Z.of_nat i)) with i in Hx by lia.
  rewrite Hy in Hx. simpl in Hx. congruence.
Qed.

(** ** Bit scans *)

Lemma land_pred_odd a : Z.land (2 * a + 1) (2 * a) = 2 * a.
Proof.
  apply Z.bits_inj'. intros n Hn. rewrite Z.land_spec.
  destruct (Z.eq_dec n 0) as [->|Hne].
  - by rewrite Z.testbit_odd_0, Z.testbit_even_0.
  - replace n with (Z.succ (n - 1)) by lia.
    rewrite Z.testbit_odd_succ, Z.testbit_even_succ by lia.
    apply andb_diag.
Qed.

Lemma land_pred_even a : Z.land (2 * a) (2 * a - 1) = 2 * Z.land a (a - 1).
Proof.
  replace (2 * a - 1) with (2 * (a - 1) + 1) by lia.
  apply Z.bits_inj'. intros n Hn. rewrite Z.land_spec.
  destruct (Z.eq_dec n 0) as [->|Hne].
  - by rewrite !Z.testbit_even_0.
  - replace n with (Z.succ (n - 1)) by lia.
    rewrite Z.testbit_odd_succ, !Z.testbit_even_succ by lia.
    by rewrite Z.land_spec.
Qed.

Lemma bits_pos_pop p k :
  bits_pos p k = (k + ctz_pos p) :: bits_from (Z.land (Zpos p) (Zpos p - 1)) k.
Proof.
  revert k. induction p as [q IH|q IH|]; intros k.
  - change (Zpos q~1) with (2 * Zpos q + 1).
    replace (2 * Zpos q + 1 - 1) with (2 * Zpos q) by lia.
    rewrite land_pred_odd. simpl. f_equal. lia.
  - change (Zpos q~0) with (2 * Zpos q). rewrite land_pred_even.
    change (bits_pos q~0 k) with (bits_pos q (k + 1)). rewrite IH.
    f_equal; [simpl; lia|].
    by destruct (Z.land (Zpos q) (Zpos q - 1)).
  - simpl. f_equal. lia.
Qed.

Lemma length_bits_pos p k n :
  Zpos p < 2 ^ Z.of_nat n -> (length (bits_pos p k) <= n)%nat.
Proof.
  revert k n. induction p as [q IH|q IH|]; intros k n Hp.
  - destruct n as [|n]; [simpl in Hp; lia|].
    rewrite Nat2Z.inj_succ, Z.pow_succ_r in Hp by lia.
    simpl. apply le_n_S, IH. lia.
  - destruct n as [|n]; [simpl in Hp; lia|].
    rewrite Nat2Z.inj_succ, Z.pow_succ_r in Hp by lia.
    simpl. apply Nat.le_le_succ_r, IH. lia.
  - destruct n as [|n]; [simpl in Hp; lia|]. simpl. lia.
Qed.

Lemma elem_of_bits_pos p k sq :
  sq ∈ bits_pos p k <-> k <= sq /\ Z.testbit (Zpos p) (sq - k) = true.
Proof.
  revert k. induction p as [q IH|q IH|]; intros k.
  - change (Zpos q~1) with (2 * Zpos q + 1). simpl bits_pos.
    rewrite elem_of_cons, IH. destruct (Z.eq_dec sq k) as [->|Hne].
    + rewrite Z.sub_diag, Z.testbit_odd_0.
      split; [intros _; split; [lia|done] | intros _; by left].
    + split.
      * intros [?|[? Hb]]; [done|]. split; [lia|].
        replace (sq - k) with (Z.succ (sq - (k + 1))) by lia.
        by rewrite Z.testbit_odd_succ by lia.
      * intros [? Hb]. right. split; [lia|].
        replace (sq - k) with (Z.succ (sq - (k + 1))) in Hb by lia.
        by rewrite Z.testbit_odd_succ in Hb by lia.
  - change (Zpos q~0) with (2 * Zpos q). simpl bits_pos.
    rewrite IH. destruct (Z.eq_dec sq k) as [->|Hne].
    + rewrite Z.sub_diag, Z.testbit_even_0.
      split; [intros [? _]; lia | intros [_ ?]; done].
    + split.
      * intros [? Hb]. split; [lia|].
        replace (sq - k) with (Z.succ (sq - (k + 1))) by lia.
        by rewrite Z.testbit_even_succ by lia.
      * intros [? Hb]. split; [lia|].
        replace (sq - k) with (Z.succ (sq - (k + 1))) in Hb by lia.
        by rewrite Z.testbit_even_succ in Hb by lia.
  - simpl bits_pos. rewrite list_elem_of_singleton. split.
    + intros ->. by rewrite Z.sub_diag.
    + intros [? Hb]. destruct (Z.eq_dec sq k) as [|Hne]; [done|].
      replace (sq - k) with (Z.succ (sq - (k + 1))) in Hb by lia.
      change 1 with (2 * 0 + 1) in Hb.
      rewrite Z.testbit_odd_succ, Z.bits_0 in Hb by lia. done.
Qed.

Lemma NoDup_bits_pos p k : NoDup (bits_pos p k).
Proof.
  revert k. induction p as [q IH|q IH|]; intros k; simpl.
  - apply NoDup_cons. split; [|apply IH].
    rewrite elem_of_bits_pos. lia.
  - apply IH.
  - apply NoDup_singleton.
Qed.

Lemma elem_of_bits bb sq :
  0 <= bb -> sq ∈ bits bb <-> Z.testbit bb sq = true.
Proof.
  intros Hbb. unfold bits, bits_from. destruct bb as [|p|p]; [| |lia].
  - rewrite Z.bits_0. split; [by intros ?%elem_of_nil|done].
  - rewrite elem_of_bits_pos, Z.sub_0_r. split; [by intros [_ ?]|].
    intros Hb. split; [|done].
    destruct (Z.leb_spec 0 sq); [done|]. by rewrite Z.testbit_neg_r in Hb.
Qed.

Lemma NoDup_bits bb : NoDup (bits bb).
Proof.
  unfold bits, bits_from. destruct bb; [apply NoDup_nil_2|apply NoDup_bits_pos|apply NoDup_nil_2].
Qed.

Lemma length_bits bb : 0 <= bb < 2 ^ 64 -> (length (bits bb) <= 64)%nat.
Proof.
  intros Hbb. unfold bits, bits_from. destruct bb as [|p|p]; simpl; [lia| |lia].
  apply length_bits_pos. change (Z.of_nat 64) with 64. lia.
Qed.

(** ** RefreshAccumulator *)

Lemma Zsum_nil : Zsum [] = 0.
Proof. done. Qed.

Lemma Zsum_cons x l : Zsum (x :: l) = x + Zsum l.
Proof. done. Qed.

Lemma Zsum_Permutation l l' : l ≡ₚ l' -> Zsum l = Zsum l'.
Proof. induction 1; simpl in *; lia. Qed.

Lemma Zsum_app l l' : Zsum (l ++ l') = Zsum l + Zsum l'.
Proof. induction l; simpl in *; lia. Qed.

Lemma exact_lane_Permutation G l l' i :
  l ≡ₚ l' -> exact_lane G l i = exact_lane G l' i.
Proof.
  intros Hp. unfold exact_lane. f_equal. apply Zsum_Permutation.
  by apply fmap_Permutation.
Qed.

Lemma feature_sum_Permutation G l l' :
  l ≡ₚ l' -> feature_sum G l = feature_sum G l'.
Proof.
  intros Hp. apply lanes_ext. intros i _. f_equal.
  by apply exact_lane_Permutation.
Qed.

Lemma refresh_loop_bits fuel G board kingSq perspective occ acc :
  0 <= occ -> (length (bits occ) <= fuel)%nat ->
  refresh_loop fuel G board kingSq perspective occ acc
  = foldl (fun a sq => add_row G a (square_feature board kingSq perspective sq)) acc (bits occ).
Proof.
  revert occ acc. induction fuel as [|fuel IH]; intros occ acc Hocc Hlen.
  - destruct (bits occ); [done|simpl in Hlen; lia].
  - simpl. destruct (Z.eqb_spec occ 0) as [->|Hne]; [done|].
    destruct occ as [|p|p]; [done| |lia].
    change (bits (Zpos p)) with (bits_pos p 0) in *. rewrite bits_pos_pop in *.
    simpl in Hlen. simpl foldl. rewrite Z.add_0_l.
    apply IH; [apply Z.land_nonneg; lia | unfold bits; lia].
Qed.

(** Adding rows to lanes that hold a wrapped integer keeps them so. *)
Lemma foldl_add_row G g features :
  foldl (add_row G) (lanes (fun i => to_int16 (g i))) features
  = lanes (fun i => to_int16 (g i + Zsum ((fun f => row_lane G f i) <$> features))).
Proof.
  revert g. induction features as [|f fs IH]; intros g.
  - apply lanes_ext. intros i _. rewrite fmap_nil, Zsum_nil. f_equal. lia.
  - simpl foldl.
    replace (add_row G (lanes (fun i => to_int16 (g i))) f)
      with (lanes (fun i => to_int16 (g i + row_lane G f i))).
    + rewrite IH. apply lanes_ext. intros i _. rewrite fmap_cons, Zsum_cons. f_equal. lia.
    + apply lanes_ext. intros i Hi. rewrite rd_lanes by done.
      unfold to_int16. by rewrite wrap_add_l.
Qed.

Lemma foldl_sub_row G g features :
  foldl (sub_row G) (lanes (fun i => to_int16 (g i))) features
  = lanes (fun i => to_int16 (g i - Zsum ((fun f => row_lane G f i) <$> features))).
Proof.
  revert g. induction features as [|f fs IH]; intros g.
  - apply lanes_ext. intros i _. rewrite fmap_nil, Zsum_nil. f_equal. lia.
  - simpl foldl.
    replace (sub_row G (lanes (fun i => to_int16 (g i))) f)
      with (lanes (fun i => to_int16 (g i - row_lane G f i))).
    + rewrite IH. apply lanes_ext. intros i _. rewrite fmap_cons, Zsum_cons. f_equal. lia.
    + apply lanes_ext. intros i Hi. rewrite rd_lanes by done.
      unfold to_int16. by rewrite wrap_sub_l.
Qed.

Lemma memcpy_biases G :
  Forall in_int16 (HIDDEN_BIASES G) ->
  memcpy_acc (HIDDEN_BIASES G) = lanes (fun i => to_int16 (rd (HIDDEN_BIASES G) i)).
Proof.
  intros HB. apply lanes_ext. intros i _. symmetry. by apply to_int16_id, rd_in_int16.
Qed.

Lemma foldl_fmap_r {A B C} (f : A -> B -> A) (h : C -> B) a l :
  foldl (fun x c => f x (h c)) a l = foldl f a (h <$> l).
Proof. revert a. induction l; intros; simpl; auto. Qed.

Lemma RefreshAccumulator_bits G a0 board perspective :
  0 <= OccBB board BOTH < 2 ^ 64 ->
  Forall in_int16 (HIDDEN_BIASES G) ->
  RefreshAccumulator G a0 board perspective
  = feature_sum G (board_features board perspective (bits (OccBB board BOTH))).
Proof.
  intros Hocc HB. unfold RefreshAccumulator.
  rewrite refresh_loop_bits by (try apply length_bits; lia).
  rewrite foldl_fmap_r, memcpy_biases, foldl_add_row by done.
  done.
Qed.

Lemma enumerations_Permutation board sqs sqs' :
  enumerates_occupied board sqs -> enumerates_occupied board sqs' -> sqs ≡ₚ sqs'.
Proof.
  intros [Hnd Hsq] [Hnd' Hsq']. apply NoDup_Permutation; [done..|].
  intros sq. by rewrite Hsq, Hsq'.
Qed.

Lemma bits_enumerates board :
  0 <= OccBB board BOTH -> enumerates_occupied board (bits (OccBB board BOTH)).
Proof.
  intros Hocc. split; [apply NoDup_bits|]. intros sq. by apply elem_of_bits.
Qed.

(** The refresh over any enumeration of the occupied squares. *)
Lemma RefreshAccumulator_enumerated G a0 board perspective sqs :
  0 <= OccBB board BOTH < 2 ^ 64 ->
  Forall in_int16 (HIDDEN_BIASES G) ->
  enumerates_occupied board sqs ->
  RefreshAccumulator G a0 board perspective
  = feature_sum G (board_features board perspective sqs).
Proof.
  intros Hocc HB Hsqs. rewrite RefreshAccumulator_bits by done.
  apply feature_sum_Permutation. unfold board_features. apply fmap_Permutation.
  apply (enumerations_Permutation board); [apply bits_enumerates; lia|done].
Qed.

(** C7: the Accumulator of [RefreshAccumulator] is [hiddenBiases] plus the
    lane-wise sum of the weight rows of the features of the occupied
    squares: every lane is the 16-bit value of bias plus row entries, and it
    is that integer itself whenever the integer fits the lane.  The result
    does not depend on the order in which the occupied squares are listed:
    any two enumerations give the same sum. *)
Theorem RefreshAccumulator_feature_sum G a0 board perspective sqs :
  0 <= OccBB board BOTH < 2 ^ 64 ->
  Forall in_int16 (HIDDEN_BIASES G) ->
  enumerates_occupied board sqs ->
  RefreshAccumulator G a0 board perspective
  = feature_sum G (board_features board perspective sqs)
  /\ (forall i, 0 <= i < N_HIDDEN ->
      in_int16 (exact_lane G (board_features board perspective sqs) i) ->
      rd (RefreshAccumulator G a0 board perspective) i
      = exact_lane G (board_features board perspective sqs) i)
  /\ (forall sqs', enumerates_occupied board sqs' ->
      feature_sum G (board_features board perspective sqs')
      = feature_sum G (board_features board perspective sqs)).
Proof.
  intros Hocc HB Hsqs.
  pose proof (RefreshAccumulator_enumerated G a0 board perspective sqs Hocc HB Hsqs) as Heq.
  split; [done|]. split.
  - intros i Hi Hfit. rewrite Heq. unfold feature_sum.
    rewrite rd_lanes by done. by apply to_int16_id.
  - intros sqs' Hsqs'. apply feature_sum_Permutation. unfold board_features.
    apply fmap_Permutation. by apply (enumerations_Permutation board).
Qed.

(** ** ApplyUpdates *)

Lemma acc_at_set_acc_eq board p q a :
  valid_slot board p q -> acc_at (set_acc board p q a) p q = a.
Proof.
  intros (Hp & Hq & row & Hrow & Hlen). unfold acc_at, set_acc.
  destruct (Z.ltb_spec p 0); [lia|]. destruct (Z.ltb_spec q 0); [lia|].
  simpl. rewrite list_lookup_alter_eq, Hrow. simpl.
  by rewrite list_lookup_insert_eq.
Qed.

Lemma set_acc_lookup_ne board p q a (p' q' : nat) :
  ~ (Z.of_nat p' = p /\ Z.of_nat q' = q) ->
  (row ← accumulators (set_acc board p q a) !! p'; row !! q')
  = (row ← accumulators board !! p'; row !! q').
Proof.
  intros Hne. unfold set_acc.
  destruct (Z.ltb_spec p 0); [done|]. destruct (Z.ltb_spec q 0); [done|].
  simpl. destruct (decide (Z.to_nat p = p')) as [<-|Hp].
  - rewrite list_lookup_alter_eq. destruct (accumulators board !! Z.to_nat p); [|done].
    simpl. apply list_lookup_insert_ne. lia.
  - by rewrite list_lookup_alter_ne.
Qed.

Lemma seqZ_from_1 n : 1 <= n -> seqZ 0 n = 0 :: seqZ 1 (n - 1).
Proof. intros Hn. rewrite seqZ_cons by lia. reflexivity. Qed.

(** With a removal, the new lanes are the previous ones minus the removed
    rows plus the added rows. *)
Lemma ApplyUpdates_output G board persp updates g :
  1 <= nr updates ->
  valid_slot board persp (ply board) ->
  acc_at board persp (ply board - 1) = lanes (fun i => to_int16 (g i)) ->
  acc_at (ApplyUpdates G board persp updates).2 persp (ply board)
  = lanes (fun i => to_int16
             (g i - Zsum ((fun f => row_lane G f i) <$> removed_features updates)
                  + Zsum ((fun f => row_lane G f i) <$> added_features updates))).
Proof.
  intros Hnr Hslot Hprev. unfold ApplyUpdates. cbn [snd].
  rewrite acc_at_set_acc_eq by done.
  destruct (Z.eqb_spec (nr updates) 0) as [|_]; [lia|].
  rewrite Hprev.
  rewrite (foldl_fmap_r (add_row G) (rd (additions updates))).
  rewrite (foldl_fmap_r (sub_row G) (rd (removals updates))).
  fold (added_features updates).
  assert (Hrem : forall a,
    foldl (sub_row G) (sub_row G a (rd (removals updates) 0))
          (rd (removals updates) <$> seqZ 1 (nr updates - 1))
    = foldl (sub_row G) a (removed_features updates)).
  { intros a. unfold removed_features.
    rewrite (seqZ_from_1 (nr updates)) by done. by rewrite fmap_cons. }
  rewrite Hrem, foldl_sub_row, foldl_add_row. done.
Qed.

(** C1: for the diff of a move (one with a removal, or with neither a
    removal nor an addition: a diff without removal stands for no change
    of features), when the previous Accumulator is [hiddenBiases] plus the
    rows of the features active before the move, the Accumulator written by
    [ApplyUpdates] is [hiddenBiases] plus the rows of the features active
    after the move; it is, lane for lane, the Accumulator
    [RefreshAccumulator] computes on any board whose occupied squares carry
    the features active after the move. *)
Theorem ApplyUpdates_feature_sum G board persp updates before after :
  1 <= nr updates \/ (nr updates = 0 /\ na updates <= 0) ->
  valid_slot board persp (ply board) ->
  acc_at board persp (ply board - 1) = feature_sum G before ->
  describes_change updates before after ->
  acc_at (ApplyUpdates G board persp updates).2 persp (ply board) = feature_sum G after
  /\ (forall a0 board' sqs,
      0 <= OccBB board' BOTH < 2 ^ 64 ->
      Forall in_int16 (HIDDEN_BIASES G) ->
      enumerates_occupied board' sqs ->
      board_features board' persp sqs ≡ₚ after ->
      acc_at (ApplyUpdates G board persp updates).2 persp (ply board)
      = RefreshAccumulator G a0 board' persp).
Proof.
  intros Hdiff Hslot Hprev Hchange.
  assert (Hsum : forall i,
    Zsum ((fun f => row_lane G f i) <$> removed_features updates)
    + Zsum ((fun f => row_lane G f i) <$> after)
    = Zsum ((fun f => row_lane G f i) <$> added_features updates)
      + Zsum ((fun f => row_lane G f i) <$> before)).
  { intros i. rewrite <- !Zsum_app, <- !fmap_app.
    apply Zsum_Permutation. by apply fmap_Permutation. }
  assert (Hnew : acc_at (ApplyUpdates G board persp updates).2 persp (ply board)
                 = feature_sum G after).
  { destruct Hdiff as [Hnr|[Hnr Hna]].
    - erewrite ApplyUpdates_output by done.
      apply lanes_ext. intros i _. f_equal. unfold exact_lane.
      specialize (Hsum i). lia.
    - unfold ApplyUpdates. cbn [fst snd]. rewrite acc_at_set_acc_eq by done.
      rewrite Hnr. simpl. rewrite Hprev, memcpy_acc_id by apply length_lanes.
      apply lanes_ext. intros i _. f_equal. unfold exact_lane.
      specialize (Hsum i). unfold removed_features, added_features in Hsum.
      rewrite Hnr in Hsum. rewrite (seqZ_nil 0 (na updates)) in Hsum by done.
      rewrite seqZ_nil in Hsum by done. simpl in Hsum. lia. }
  split; [done|].
  intros a0 board' sqs Hocc HB Hsqs Hafter.
  rewrite Hnew, (RefreshAccumulator_enumerated G a0 board' persp sqs) by done.
  symmetry. by apply feature_sum_Permutation.
Qed.

(** C4: a diff with an empty removal list, whatever its additions, leaves
    the current ply's Accumulator equal, lane for lane, to the previous
    ply's. *)
Theorem ApplyUpdates_no_removal G board persp updates :
  nr updates = 0 ->
  valid_slot board persp (ply board) ->
  full_width (acc_at board persp (ply board - 1)) ->
  acc_at (ApplyUpdates G board persp updates).2 persp (ply board)
  = acc_at board persp (ply board - 1).
Proof.
  intros Hnr Hslot Hprev. unfold ApplyUpdates. cbn [fst snd].
  rewrite acc_at_set_acc_eq by done. rewrite Hnr. simpl.
  by apply memcpy_acc_id.
Qed.

(** C10: [ApplyUpdates] changes nothing but
    [board->accumulators[stm][board->ply]]: the globals, the other fields
    of the board, the shape of the accumulator history and every other
    Accumulator in it (the previous ply's too) are as before the call. *)
Theorem ApplyUpdates_frame G board persp updates :
  (ApplyUpdates G board persp updates).1 = G
  /\ squares (ApplyUpdates G board persp updates).2 = squares board
  /\ pieces (ApplyUpdates G board persp updates).2 = pieces board
  /\ occupancies (ApplyUpdates G board persp updates).2 = occupancies board
  /\ stm (ApplyUpdates G board persp updates).2 = stm board
  /\ xstm (ApplyUpdates G board persp updates).2 = xstm board
  /\ ply (ApplyUpdates G board persp updates).2 = ply board
  /\ length <$> accumulators (ApplyUpdates G board persp updates).2
     = length <$> accumulators board
  /\ (forall p q : nat,
        ~ (Z.of_nat p = persp /\ Z.of_nat q = ply board) ->
        (row ← accumulators (ApplyUpdates G board persp updates).2 !! p; row !! q)
        = (row ← accumulators board !! p; row !! q))
  /\ acc_at (ApplyUpdates G board persp updates).2 persp (ply board - 1)
     = acc_at board persp (ply board - 1).
Proof.
  unfold ApplyUpdates. cbn [fst snd].
  set (output := if nr updates =? 0 then _ else _). clearbody output.
  repeat split; try (unfold set_acc; by repeat case_match).
  - unfold set_acc. repeat case_match; try done. simpl.
    apply list_eq. intros i. rewrite !list_lookup_fmap.
    destruct (decide (Z.to_nat persp = i)) as [<-|Hi].
    + rewrite list_lookup_alter_eq. destruct (accumulators board !! Z.to_nat persp); [|done].
      simpl. by rewrite length_insert.
    + by rewrite list_lookup_alter_ne.
  - intros p q Hne. by apply set_acc_lookup_ne.
  - unfold acc_at. repeat case_match; try done.
    f_equal. apply set_acc_lookup_ne. lia.
Qed.

(** ** OutputLayer *)

Lemma to_int32_add_l a b : to_int32 (to_int32 a + b) = to_int32 (a + b).
Proof. apply wrap_add_l. Qed.

Lemma to_int32_add_r a b : to_int32 (a + to_int32 b) = to_int32 (a + b).
Proof. apply wrap_add_r. Qed.

Lemma to_int32_idemp a : to_int32 (to_int32 a) = to_int32 a.
Proof. apply to_int32_id, to_int32_range. Qed.

Lemma to_int32_add_cong a a' b b' :
  to_int32 a = to_int32 a' -> to_int32 b = to_int32 b' ->
  to_int32 (a + b) = to_int32 (a' + b').
Proof.
  intros Ha Hb.
  rewrite <- to_int32_add_l, <- to_int32_add_r, Ha, Hb.
  by rewrite to_int32_add_l, to_int32_add_r.
Qed.

Lemma Zsum_fmap_add {A} (f g : A -> Z) l :
  Zsum ((fun x => f x + g x) <$> l) = Zsum (f <$> l) + Zsum (g <$> l).
Proof. induction l as [|x l IH]; [done|]. rewrite !fmap_cons, !Zsum_cons. lia. Qed.

Lemma scalar_step r a b :
  to_int32 (to_int32 (to_int32 r + to_int32 a) + to_int32 b) = to_int32 (r + a + b).
Proof.
  rewrite to_int32_add_l. apply to_int32_add_cong; [|apply to_int32_idemp].
  apply to_int32_add_cong; apply to_int32_idemp.
Qed.

(** The scalar loop keeps the 32-bit value of the running total. *)
Lemma scalar_loop (A B : Z -> Z) r0 l :
  foldl (fun result i => to_int32 (to_int32 (result + to_int32 (A i)) + to_int32 (B i)))
        (to_int32 r0) l
  = to_int32 (r0 + Zsum (A <$> l) + Zsum (B <$> l)).
Proof.
  revert r0. induction l as [|i l IH]; intros r0.
  - rewrite !fmap_nil, Zsum_nil. cbn [foldl]. f_equal. lia.
  - cbn [foldl]. rewrite !fmap_cons, !Zsum_cons.
    rewrite scalar_step, IH. f_equal. lia.
Qed.

Lemma OutputLayer_scalar_total G stm xstm :
  OutputLayer_scalar G stm xstm
  = to_int32 (output_total G stm xstm) ÷ QUANTIZATION_PRECISION_IN ÷ QUANTIZATION_PRECISION_OUT.
Proof.
  unfold OutputLayer_scalar, output_total, relu_dot.
  rewrite (scalar_loop (fun i => max (rd stm i) 0 * rd (HIDDEN_WEIGHTS G) i)
                       (fun i => max (rd xstm i) 0 * rd (HIDDEN_WEIGHTS G) (i + N_HIDDEN))).
  assert (H0 : (fun i => max (rd stm i) 0 * rd (HIDDEN_WEIGHTS G) (i + 0)) <$> seqZ 0 N_HIDDEN
               = (fun i => max (rd stm i) 0 * rd (HIDDEN_WEIGHTS G) i) <$> seqZ 0 N_HIDDEN).
  { apply list_fmap_ext. intros _ i _. by rewrite Z.add_0_r. }
  by rewrite H0.
Qed.

(** Vector lanes. *)

Lemma Zsum_add_epi32 a b :
  length a = length b ->
  to_int32 (Zsum (add_epi32 a b)) = to_int32 (Zsum a + Zsum b).
Proof.
  revert b. induction a as [|x a IH]; intros [|y b] Hlen; try done.
  unfold add_epi32 in *. cbn [zip_with]. rewrite !Zsum_cons.
  rewrite to_int32_add_l.
  replace (x + Zsum a + (y + Zsum b)) with (x + y + (Zsum a + Zsum b)) by lia.
  apply to_int32_add_cong; [done|]. apply IH. simpl in Hlen. lia.
Qed.

Lemma length_add_epi32 a b :
  length a = length b -> length (add_epi32 a b) = length a.
Proof. intros H. unfold add_epi32. by rewrite length_zip_with_l_eq. Qed.

Lemma madd_epi16_pairs n : forall a b,
  length a = (2 * n)%nat -> length b = (2 * n)%nat ->
  length (madd_epi16 a b) = n
  /\ to_int32 (Zsum (madd_epi16 a b)) = to_int32 (Zsum (zip_with Z.mul a b)).
Proof.
  induction n as [|n IH]; intros a b Ha Hb.
  - destruct a; [|done]. done.
  - destruct a as [|a0 [|a1 a]]; [done|simpl in Ha; lia|].
    destruct b as [|b0 [|b1 b]]; [done|simpl in Hb; lia|].
    cbn [madd_epi16 zip_with]. destruct (IH a b) as [Hl Hs]; [simpl in *; lia..|].
    split; [simpl; lia|].
    rewrite !Zsum_cons, to_int32_add_l.
    replace (a0 * b0 + (a1 * b1 + Zsum (zip_with Z.mul a b)))
      with (a0 * b0 + a1 * b1 + Zsum (zip_with Z.mul a b)) by lia.
    by apply to_int32_add_cong.
Qed.

Lemma zip_with_fmap_same {A B C D} (f : A -> B -> C) (g : D -> A) (h : D -> B) l :
  zip_with f (g <$> l) (h <$> l) = (fun k => f (g k) (h k)) <$> l.
Proof. induction l; [done|]. rewrite !fmap_cons. cbn [zip_with]. by f_equal. Qed.

Lemma max_epi16_zero (g : Z -> Z) l :
  max_epi16 (g <$> l) (setzero (length l)) = (fun k => max (g k) 0) <$> l.
Proof.
  unfold max_epi16, setzero. rewrite zip_with_replicate_r_eq by by rewrite length_fmap.
  rewrite <- list_fmap_compose. done.
Qed.

(** One load, rectify and multiply-add round yields [width / 2] lanes that
    add up to the dot product over the [width] lanes it covers. *)
Lemma madd_chunk G a j off hoff width n :
  Z.to_nat width = (2 * n)%nat ->
  hoff = j * width + off ->
  let ac := max_epi16 (vload a (j * width) width) (setzero (Z.to_nat width)) in
  let m := madd_epi16 ac (vload (HIDDEN_WEIGHTS G) hoff width) in
  length m = n /\ to_int32 (Zsum m) = to_int32 (chunk_dot G a off (j * width) width).
Proof.
  intros Hw ->. cbn zeta.
  destruct (madd_epi16_pairs n
              (max_epi16 (vload a (j * width) width) (setzero (Z.to_nat width)))
              (vload (HIDDEN_WEIGHTS G) (j * width + off) width)) as [Hl Hs].
  { unfold max_epi16, vload, setzero.
    rewrite length_zip_with_l_eq; rewrite ?length_fmap, ?length_seqZ, ?length_replicate; lia. }
  { unfold vload. rewrite length_fmap, length_seqZ. lia. }
  split; [done|]. rewrite Hs. f_equal.
  unfold vload, chunk_dot.
  rewrite <- (length_seqZ 0 width) at 1. rewrite max_epi16_zero.
  rewrite zip_with_fmap_same.
  replace (seqZ (j * width) width) with (Z.add (j * width) <$> seqZ 0 width)
    by (rewrite fmap_add_seqZ; f_equal; lia).
  rewrite <- list_fmap_compose.
  f_equal. apply list_fmap_ext. intros _ k _. cbn.
  do 2 f_equal. lia.
Qed.

Lemma chunk_dot_app G a off n1 n2 :
  0 <= n1 -> 0 <= n2 ->
  chunk_dot G a off 0 (n1 + n2) = chunk_dot G a off 0 n1 + chunk_dot G a off n1 n2.
Proof.
  intros H1 H2. unfold chunk_dot.
  rewrite seqZ_app, fmap_app, Zsum_app by done. done.
Qed.

(** The accumulation loop of the vector builds after [c] rounds. *)
Lemma vec_loop G width n stm xstm (c : nat) :
  0 <= width -> Z.to_nat width = (2 * n)%nat ->
  forall s0 s1,
  foldl (vec_step G width stm xstm) (setzero n, setzero n) (seqZ 0 (Z.of_nat c)) = (s0, s1) ->
  length s0 = n /\ length s1 = n
  /\ to_int32 (Zsum s0) = to_int32 (chunk_dot G stm 0 0 (Z.of_nat c * width))
  /\ to_int32 (Zsum s1) = to_int32 (chunk_dot G xstm N_HIDDEN 0 (Z.of_nat c * width)).
Proof.
  intros Hw Hn. induction c as [|c IH]; intros s0 s1 Hloop.
  - cbn in Hloop. injection Hloop as <- <-.
    unfold setzero. rewrite length_replicate. repeat split; try done.
    + unfold chunk_dot. cbn. f_equal. clear. induction n; [done|]. by rewrite replicate_S, Zsum_cons.
    + unfold chunk_dot. cbn. f_equal. clear. induction n; [done|]. by rewrite replicate_S, Zsum_cons.
  - rewrite seqZ_S, foldl_app in Hloop.
    destruct (foldl (vec_step G width stm xstm) (setzero n, setzero n) (seqZ 0 (Z.of_nat c)))
      as [t0 t1] eqn:Ht.
    destruct (IH t0 t1 eq_refl) as (Hl0 & Hl1 & Hs0 & Hs1).
    cbn [foldl] in Hloop. unfold vec_step in Hloop. cbn [fst snd] in Hloop.
    rewrite Z.add_0_l in Hloop.
    destruct (madd_chunk G stm (Z.of_nat c) 0 (Z.of_nat c * width) width n Hn) as [Hm0 Hd0]; [lia|].
    destruct (madd_chunk G xstm (Z.of_nat c) N_HIDDEN (Z.of_nat c * width + N_HIDDEN) width n Hn)
      as [Hm1 Hd1]; [lia|].
    injection Hloop as <- <-.
    rewrite !length_add_epi32 by congruence.
    repeat split; try done.
    + rewrite Zsum_add_epi32 by congruence.
      replace (Z.of_nat (S c) * width) with (Z.of_nat c * width + width) by lia.
      rewrite chunk_dot_app by lia. by apply to_int32_add_cong.
    + rewrite Zsum_add_epi32 by congruence.
      replace (Z.of_nat (S c) * width) with (Z.of_nat c * width + width) by lia.
      rewrite chunk_dot_app by lia. by apply to_int32_add_cong.
Qed.

Local Arguments to_int32 : simpl never.

(** The horizontal sums at the end of the vector kernels. *)
Lemma reduce_4 r4 :
  length r4 = 4%nat ->
  let r2 := add_epi32 r4 (srli_si128 r4 8) in
  let r1 := add_epi32 r2 (srli_si128 r2 4) in
  to_int32 (cvtsi128_si32 r1) = to_int32 (Zsum r4).
Proof.
  intros Hl. destruct r4 as [|a [|b [|c [|d [|]]]]]; try done.
  unfold srli_si128. change (Z.to_nat (8 / 4)) with 2%nat. change (Z.to_nat (4 / 4)) with 1%nat.
  unfold add_epi32, cvtsi128_si32, rd. change (Z.to_nat 0) with 0%nat. cbn.
  rewrite to_int32_idemp.
  replace (a + (b + (c + (d + 0)))) with ((a + c) + (b + d)) by lia.
  apply to_int32_add_cong; apply to_int32_idemp.
Qed.

Lemma reduce_8 r8 :
  length r8 = 8%nat ->
  let r4 := add_epi32 (castsi256_si128 r8) (extractf128_si256 r8 1) in
  length r4 = 4%nat /\ to_int32 (Zsum r4) = to_int32 (Zsum r8).
Proof.
  intros Hl. destruct r8 as [|a [|b [|c [|d [|e [|f [|g [|h [|]]]]]]]]]; try done.
  unfold castsi256_si128, extractf128_si256. change (Z.to_nat (4 * 1)) with 4%nat.
  cbn [take drop]. split; [done|].
  rewrite Zsum_add_epi32 by done. f_equal. rewrite !Zsum_cons, !Zsum_nil. lia.
Qed.

Lemma seqZ_to_nat m n : seqZ m n = seqZ m (Z.of_nat (Z.to_nat n)).
Proof. unfold seqZ. by rewrite Nat2Z.id. Qed.

Lemma chunk_dot_all G a off w (c : Z) :
  0 < w -> N_HIDDEN = c * w ->
  chunk_dot G a off 0 (Z.of_nat (Z.to_nat c) * w) = relu_dot G a off.
Proof.
  intros Hw HN. unfold chunk_dot, relu_dot.
  rewrite (seqZ_to_nat 0 N_HIDDEN), (seqZ_to_nat 0 (_ * w)). do 3 f_equal.
  destruct (Z.le_gt_cases 0 c); [rewrite (Z2Nat.id c) by done; by subst|].
  rewrite (Z2Nat.nonpos c) by lia. rewrite (Z2Nat.nonpos N_HIDDEN) by nia. done.
Qed.

(** Both vector kernels add to the bias term a lane whose 32-bit value is
    that of the two dot products. *)
Lemma vec_total G stm xstm lane :
  to_int32 lane = to_int32 (relu_dot G stm 0 + relu_dot G xstm N_HIDDEN) ->
  to_int32 (to_int32 (OUTPUT_BIAS G * QUANTIZATION_PRECISION_IN) + lane)
  = to_int32 (output_total G stm xstm).
Proof.
  intros Hlane. rewrite to_int32_add_l. unfold output_total.
  rewrite <- Z.add_assoc. by apply to_int32_add_cong.
Qed.

Lemma OutputLayer_avx2_total G stm xstm :
  (16 | N_HIDDEN) ->
  OutputLayer_avx2 G stm xstm
  = to_int32 (output_total G stm xstm) ÷ QUANTIZATION_PRECISION_IN ÷ QUANTIZATION_PRECISION_OUT.
Proof.
  intros [c Hc]. unfold OutputLayer_avx2, CHUNKS_AVX2, WIDTH_AVX2.
  change (32 / 2) with 16.
  replace (N_HIDDEN / 16) with c by (rewrite Hc, Z.div_mul; lia).
  rewrite (seqZ_to_nat 0 c).
  destruct (foldl _ _ _) as [s0 s1] eqn:Hloop.
  apply (vec_loop G 16 8) in Hloop as (Hl0 & Hl1 & Hs0 & Hs1); [|lia|done].
  rewrite chunk_dot_all in Hs0, Hs1 by (done || lia).
  destruct (reduce_8 (add_epi32 s0 s1)) as [Hl4 Hs4];
    [rewrite length_add_epi32; congruence|].
  cbn zeta in Hl4, Hs4.
  do 2 f_equal. apply vec_total.
  rewrite (reduce_4 _ Hl4), Hs4, Zsum_add_epi32 by congruence.
  by apply to_int32_add_cong.
Qed.

Lemma OutputLayer_sse_total G stm xstm :
  (8 | N_HIDDEN) ->
  OutputLayer_sse G stm xstm
  = to_int32 (output_total G stm xstm) ÷ QUANTIZATION_PRECISION_IN ÷ QUANTIZATION_PRECISION_OUT.
Proof.
  intros [c Hc]. unfold OutputLayer_sse, WIDTH_SSE.
  change (16 / 2) with 8.
  replace (N_HIDDEN / 8) with c by (rewrite Hc, Z.div_mul; lia).
  rewrite (seqZ_to_nat 0 c).
  destruct (foldl _ _ _) as [s0 s1] eqn:Hloop.
  apply (vec_loop G 8 4) in Hloop as (Hl0 & Hl1 & Hs0 & Hs1); [|lia|done].
  rewrite chunk_dot_all in Hs0, Hs1 by (done || lia).
  do 2 f_equal. apply vec_total.
  rewrite reduce_4 by (rewrite length_add_epi32; congruence).
  rewrite Zsum_add_epi32 by congruence.
  by apply to_int32_add_cong.
Qed.

(** C2: for every pair of accumulators the AVX2, the SSE and the scalar
    kernel return the same score, for a hidden width that the widest
    vector divides. *)
Theorem OutputLayer_builds_agree G stm xstm :
  (16 | N_HIDDEN) ->
  OutputLayer AVX2 G stm xstm = OutputLayer Scalar G stm xstm
  /\ OutputLayer SSE G stm xstm = OutputLayer Scalar G stm xstm.
Proof.
  intros H16. assert (H8 : (8 | N_HIDDEN)).
  { destruct H16 as [c ->]. exists (2 * c). lia. }
  cbn [OutputLayer].
  by rewrite OutputLayer_avx2_total, OutputLayer_sse_total, OutputLayer_scalar_total.
Qed.

(** C3 (amended): whenever the integer
    [outputBias * inputPrecision + sum max(stm[i],0) * hiddenWeights[i]
     + sum max(xstm[i],0) * hiddenWeights[i + hiddenWidth]]
    fits a 32-bit [int], [OutputLayer] returns its truncating quotient by
    [inputPrecision * outputPrecision]. *)
Theorem OutputLayer_quotient G stm xstm :
  in_int32 (output_total G stm xstm) ->
  OutputLayer Scalar G stm xstm
  = output_total G stm xstm ÷ (QUANTIZATION_PRECISION_IN * QUANTIZATION_PRECISION_OUT).
Proof.
  intros Hfit. cbn [OutputLayer].
  rewrite OutputLayer_scalar_total, to_int32_id by done.
  by apply Z.quot_quot.
Qed.

(** C8: [Predict] leaves the globals and the board as they are and its
    score does not depend on what the local accumulators held before, so a
    second call on the unchanged board returns the same score. *)
Theorem Predict_deterministic b G board stm0 xstm0 stm1 xstm1 :
  let first := Predict b G board stm0 xstm0 in
  let second := Predict b first.2.1 first.2.2 stm1 xstm1 in
  first.2 = (G, board) /\ second.2 = (G, board) /\ second.1 = first.1.
Proof. done. Qed.

(** ** Multiplication of a [float] by a power of two *)

Lemma iter_pos_nat {A} (f : A -> A) p x :
  SpecFloat.iter_pos f p x = Nat.iter (Pos.to_nat p) f x.
Proof.
  revert x. induction p as [p IH|p IH|]; intros x; cbn [SpecFloat.iter_pos].
  - rewrite !IH, Pos2Nat.inj_xI.
    replace (S (2 * Pos.to_nat p))%nat with (Pos.to_nat p + (Pos.to_nat p + 1))%nat by lia.
    rewrite !Nat.iter_add. done.
  - rewrite !IH, Pos2Nat.inj_xO.
    replace (2 * Pos.to_nat p)%nat with (Pos.to_nat p + Pos.to_nat p)%nat by lia.
    by rewrite Nat.iter_add.
  - done.
Qed.

Lemma shr_1_double z :
  shr_1 (Build_shr_record (2 * z) false false) = Build_shr_record z false false.
Proof. by destruct z. Qed.

Lemma shr_iter_pow2 (n : nat) z :
  Nat.iter n shr_1 (Build_shr_record (z * 2 ^ Z.of_nat n) false false)
  = Build_shr_record z false false.
Proof.
  revert z. induction n as [|n IH]; intros z.
  - cbn. f_equal. lia.
  - rewrite Nat.iter_succ_r, Nat2Z.inj_succ, Z.pow_succ_r by lia.
    replace (z * (2 * 2 ^ Z.of_nat n)) with (2 * (z * 2 ^ Z.of_nat n)) by lia.
    by rewrite shr_1_double, IH.
Qed.

(** Shifting out [n] of [t] trailing zero bits is exact. *)
Lemma shr_pow2 z t e n :
  0 <= n <= t ->
  shr (Build_shr_record (z * 2 ^ t) false false) e n
  = (Build_shr_record (z * 2 ^ (t - n)) false false, e + n).
Proof.
  intros Hn. destruct n as [|p|p]; [| |lia].
  - cbn [shr]. by rewrite Z.sub_0_r, Z.add_0_r.
  - cbn [shr]. rewrite iter_pos_nat.
    replace (z * 2 ^ t) with (z * 2 ^ (t - Zpos p) * 2 ^ Z.of_nat (Pos.to_nat p)).
    + by rewrite shr_iter_pow2.
    + rewrite positive_nat_Z, <- Z.mul_assoc, <- Z.pow_add_r by lia.
      do 2 f_equal. lia.
Qed.

Lemma Zdigits2_double z : 0 < z -> Zdigits2 (2 * z) = Zdigits2 z + 1.
Proof.
  destruct z as [|p|p]; try lia. intros _.
  change (Zdigits2 (2 * Zpos p)) with (Zpos (Pos.succ (digits2_pos p))).
  rewrite Pos2Z.inj_succ. cbn [Zdigits2]. lia.
Qed.

Lemma Zdigits2_pow2 z (t : Z) :
  0 < z -> 0 <= t -> Zdigits2 (z * 2 ^ t) = Zdigits2 z + t.
Proof.
  intros Hz Ht. revert t Ht. apply natlike_ind.
  - rewrite Z.mul_1_r. lia.
  - intros t Ht IH. rewrite Z.pow_succ_r by done.
    replace (z * (2 * 2 ^ t)) with (2 * (z * 2 ^ t)) by lia.
    rewrite Zdigits2_double by (apply Z.mul_pos_pos; lia). lia.
Qed.

(** Rounding a mantissa [m * 2^t] whose excess bits are among its [t]
    trailing zeros: nothing is lost. *)
Lemma binary_round_aux_pow2 s (m : positive) (t E : Z) :
  let n := Z.max 0 (fexp prec32 emax32 (Zpos (digits2_pos m) + t + E) - E) in
  0 <= t -> n <= t ->
  binary_round_aux prec32 emax32 s (Zpos m * 2 ^ t) E loc_Exact
  = if E + n <=? emax32 - prec32
    then S754_finite s (Z.to_pos (Zpos m * 2 ^ (t - n))) (E + n)
    else S754_infinity s.
Proof.
  intros n Ht Hn. unfold binary_round_aux, shr_fexp.
  rewrite Zdigits2_pow2 by lia. cbn [Zdigits2 shr_record_of_loc].
  set (n1 := fexp prec32 emax32 (Zpos (digits2_pos m) + t + E) - E) in *.
  assert (Hshr1 : shr (Build_shr_record (Zpos m * 2 ^ t) false false) E n1
                  = (Build_shr_record (Zpos m * 2 ^ (t - n)) false false, E + n)).
  { destruct (Z.le_gt_cases 0 n1).
    - replace n with n1 by lia. apply shr_pow2. lia.
    - replace n with 0 by lia. rewrite Z.sub_0_r, Z.add_0_r.
      destruct n1; try lia. done. }
  rewrite Hshr1. cbn [shr_m loc_of_shr_record round_nearest_even shr_record_of_loc].
  assert (Hpos : 0 < Zpos m * 2 ^ (t - n)) by (apply Z.mul_pos_pos; [lia|apply Z.pow_pos_nonneg; lia]).
  rewrite Zdigits2_pow2 by lia. cbn [Zdigits2].
  replace (Zpos (digits2_pos m) + (t - n) + (E + n)) with (Zpos (digits2_pos m) + t + E) by lia.
  set (n2 := fexp prec32 emax32 (Zpos (digits2_pos m) + t + E) - (E + n)).
  assert (Hn2 : n2 <= 0) by (unfold n2; fold n1 in n; lia).
  assert (Hshr2 : shr (Build_shr_record (Zpos m * 2 ^ (t - n)) false false) (E + n) n2
                  = (Build_shr_record (Zpos m * 2 ^ (t - n)) false false, E + n)).
  { destruct n2; [done|lia|done]. }
  rewrite Hshr2. cbn [shr_m].
  destruct (Zpos m * 2 ^ (t - n)) as [|q|q]; try lia. done.
Qed.

Lemma bounded_inv m e :
  bounded prec32 emax32 m e = true ->
  Z.max (Zpos (digits2_pos m) + e - 24) (-149) = e /\ e <= 104.
Proof.
  unfold bounded, canonical_mantissa, fexp, emin, prec32, emax32.
  intros [H1 H2]%andb_true_iff. apply Z.eqb_eq in H1. apply Z.leb_le in H2.
  change (3 - 128 - 24) with (-149) in H1. lia.
Qed.

(** [v * precision] for the two precisions of the loader: the product is
    the float [m * 2^j] at exponent [e + k - j], or overflows. *)
Lemma fmul_precision s m e k :
  k = 5 \/ k = 9 ->
  bounded prec32 emax32 m e = true ->
  exists j, 0 <= j <= 23 /\
    fmul (S754_finite s m e) (float_of_int (2 ^ k))
    = if e + k - j <=? 104
      then S754_finite s (Z.to_pos (Zpos m * 2 ^ j)) (e + k - j)
      else S754_infinity s.
Proof.
  intros Hk [Hcanon He]%bounded_inv.
  set (E := e + (k - 23)).
  set (n := Z.max 0 (fexp prec32 emax32 (Zpos (digits2_pos m) + 23 + E) - E)).
  assert (Hn : 0 <= n <= 23).
  { unfold n, E, fexp, emin, prec32, emax32. change (3 - 128 - 24) with (-149). lia. }
  exists (23 - n). split; [lia|].
  assert (Hmul : fmul (S754_finite s m e) (float_of_int (2 ^ k))
                 = binary_round_aux prec32 emax32 s (Zpos m * 2 ^ 23) E loc_Exact).
  { unfold E. destruct Hk as [-> | ->].
    - change (float_of_int (2 ^ 5)) with (S754_finite false 8388608 (-18)).
      unfold fmul. cbn [SFmul]. by rewrite xorb_false_r, Pos2Z.inj_mul.
    - change (float_of_int (2 ^ 9)) with (S754_finite false 8388608 (-14)).
      unfold fmul. cbn [SFmul]. by rewrite xorb_false_r, Pos2Z.inj_mul. }
  rewrite Hmul, binary_round_aux_pow2 by (fold n; lia). fold n.
  unfold emax32, prec32. change (128 - 24) with 104.
  replace (E + n) with (e + k - (23 - n)) by (unfold E; lia). done.
Qed.

(** ** Rounding *)

(** [round_mag] through a common denominator [2^T]. *)
Lemma round_mag_common (a : positive) b T :
  0 <= T -> - b <= T ->
  round_mag a b = (2 * (Zpos a * 2 ^ (b + T)) + 2 ^ T) / (2 * 2 ^ T).
Proof.
  intros HT HbT. unfold round_mag.
  assert (H2T : 0 < 2 ^ T) by (apply Z.pow_pos_nonneg; lia).
  destruct (Z.leb_spec 0 b) as [Hb|Hb].
  - rewrite Z.pow_add_r by lia.
    replace (2 * (Zpos a * (2 ^ b * 2 ^ T)) + 2 ^ T)
      with (2 ^ T * (Zpos a * 2 ^ b * 2 + 1)) by lia.
    rewrite (Z.mul_comm 2 (2 ^ T)), Z.div_mul_cancel_l by lia.
    rewrite Z.div_add_l by lia. change (1 / 2) with 0. lia.
  - assert (H2 : 2 ^ (- b) = 2 * 2 ^ (- b - 1)).
    { rewrite <- Z.pow_succ_r by lia. f_equal. lia. }
    assert (H3 : 2 ^ T = 2 ^ (b + T) * 2 ^ (- b)).
    { rewrite <- Z.pow_add_r by lia. f_equal. lia. }
    assert (0 < 2 ^ (b + T)) by (apply Z.pow_pos_nonneg; lia).
    assert (0 < 2 ^ (- b)) by (apply Z.pow_pos_nonneg; lia).
    rewrite H3.
    replace (2 * (Zpos a * 2 ^ (b + T)) + 2 ^ (b + T) * 2 ^ (- b))
      with (2 * 2 ^ (b + T) * (Zpos a + 2 ^ (- b - 1))) by (rewrite H2; lia).
    replace (2 * (2 ^ (b + T) * 2 ^ (- b))) with (2 * 2 ^ (b + T) * 2 ^ (- b)) by lia.
    rewrite Z.div_mul_cancel_l by lia. done.
Qed.

Lemma round_mag_scale (m : positive) e j :
  0 <= j -> round_mag (Z.to_pos (Zpos m * 2 ^ j)) (e - j) = round_mag m e.
Proof.
  intros Hj. assert (0 < 2 ^ j) by (apply Z.pow_pos_nonneg; lia).
  rewrite (round_mag_common _ (e - j) (Z.max 0 (j - e))) by lia.
  rewrite (round_mag_common m e (Z.max 0 (j - e))) by lia.
  rewrite Z2Pos.id by (apply Z.mul_pos_pos; lia).
  rewrite <- Z.mul_assoc, <- Z.pow_add_r by lia.
  by replace (j + (e - j + Z.max 0 (j - e))) with (e + Z.max 0 (j - e)) by lia.
Qed.

Lemma round_mag_lower (m : positive) e : 0 <= e -> 2 ^ e <= round_mag m e.
Proof.
  intros He. unfold round_mag. destruct (Z.leb_spec 0 e); [|lia].
  assert (0 < 2 ^ e) by (apply Z.pow_pos_nonneg; lia). nia.
Qed.

Lemma Qround_away_frac (N : Z) (D : positive) :
  Qround_away (N # D)
  = if 0 <=? N then (2 * N + Zpos D) / (2 * Zpos D)
    else - ((2 * (- N) + Zpos D) / (2 * Zpos D)).
Proof.
  unfold Qround_away, Qle_bool, Qceiling, Qfloor, Qminus, Qplus, Qopp.
  cbn [Qnum Qden]. rewrite Z.mul_1_r, Z.mul_0_l.
  destruct (0 <=? N).
  - f_equal; lia.
  - do 2 f_equal; lia.
Qed.

Lemma cond_Zopp_mul s a b : cond_Zopp s a * b = cond_Zopp s (a * b).
Proof. destruct s; cbn; lia. Qed.

(** The value [round] returns for [±m * 2^e] times [2^k] is the
    quantization of the rational the float stands for. *)
Lemma round_frac_sign s (X : Z) (D : positive) :
  0 < X ->
  (if 0 <=? cond_Zopp s X then (2 * cond_Zopp s X + Zpos D) / (2 * Zpos D)
   else - ((2 * (- cond_Zopp s X) + Zpos D) / (2 * Zpos D)))
  = cond_Zopp s ((2 * X + Zpos D) / (2 * Zpos D)).
Proof.
  intros HX. destruct s; cbn [cond_Zopp].
  - destruct (Z.leb_spec 0 (- X)); [lia|]. by rewrite Z.opp_involutive.
  - destruct (Z.leb_spec 0 X); [done|lia].
Qed.

(** The value [round] returns for [±m * 2^e] times [2^k] is the
    quantization of the rational the float stands for. *)
Lemma quantize_finite s m e k :
  0 <= k ->
  quantize (SF2Q (S754_finite s m e)) (2 ^ k) = cond_Zopp s (round_mag m (e + k)).
Proof.
  intros Hk. assert (HP : 0 < 2 ^ k) by (apply Z.pow_pos_nonneg; lia).
  unfold quantize, SF2Q.
  destruct e as [|q|q].
  - unfold inject_Z, Qmult. cbn [Qnum Qden]. rewrite Qround_away_frac.
    rewrite (round_mag_common m (0 + k) 0) by lia.
    rewrite Z.add_0_r, Z.add_0_l, !cond_Zopp_mul.
    change (2 ^ 0) with 1. rewrite Z.mul_1_r.
    apply (round_frac_sign s (Zpos m * 2 ^ k) (1 * 1)). lia.
  - assert (0 < 2 ^ Zpos q) by (apply Z.pow_pos_nonneg; lia).
    unfold inject_Z, Qmult. cbn [Qnum Qden]. rewrite Qround_away_frac.
    rewrite (round_mag_common m (Zpos q + k) 0) by lia.
    rewrite Z.add_0_r, !cond_Zopp_mul.
    rewrite (round_frac_sign s (Zpos m * 2 ^ Zpos q * 2 ^ k) (1 * 1)) by nia.
    rewrite Z.pow_add_r by lia. change (2 ^ 0) with 1. change (Zpos (1 * 1)) with 1.
    do 2 f_equal. lia.
  - unfold inject_Z, Qmult. cbn [Qnum Qden]. rewrite Qround_away_frac.
    rewrite (round_mag_common m (Zneg q + k) (Zpos q)) by lia.
    replace (Zneg q + k + Zpos q) with k by lia.
    rewrite !cond_Zopp_mul.
    replace (2 ^ Zpos q) with (Zpos (2 ^ q * 1)) by (rewrite Pos.mul_1_r; apply Pos2Z.inj_pow).
    apply (round_frac_sign s (Zpos m * 2 ^ k) (2 ^ q * 1)). lia.
Qed.

Lemma Qround_away_near (y : Q) :
  (- (1 # 2) <= inject_Z (Qround_away y) - y <= 1 # 2)%Q.
Proof.
  unfold Qround_away. destruct (Qle_bool 0 y).
  - pose proof (Qfloor_le (y + (1 # 2))). pose proof (Qlt_floor (y + (1 # 2))).
    rewrite inject_Z_plus in *. change (inject_Z 1) with 1%Q in *.
    generalize dependent (inject_Z (Qfloor (y + (1 # 2)))). intros f; intros. lra.
  - pose proof (Qle_ceiling (y - (1 # 2))). pose proof (Qceiling_lt (y - (1 # 2))).
    unfold Z.sub in *. rewrite inject_Z_plus in *. change (inject_Z (Z.opp 1)) with (-1 # 1)%Q in *.
    generalize dependent (inject_Z (Qceiling (y - (1 # 2)))). intros f; intros. lra.
Qed.

Lemma dequantize_error_32 (x : Q) :
  (Qabs (dequantize (quantize x 32) 32 - x) <= 1 / (2 * inject_Z 32))%Q.
Proof.
  apply Qabs_Qle_condition. unfold dequantize, quantize.
  pose proof (Qround_away_near (x * inject_Z 32)) as H.
  change (1 / (2 * inject_Z 32))%Q with (1 # 64)%Q.
  change (inject_Z 32) with (32 # 1)%Q in *. unfold Qdiv.
  change (/ (32 # 1))%Q with (1 # 32)%Q.
  generalize dependent (inject_Z (Qround_away (x * (32 # 1)))). intros f; intros. lra.
Qed.

Lemma dequantize_error_512 (x : Q) :
  (Qabs (dequantize (quantize x 512) 512 - x) <= 1 / (2 * inject_Z 512))%Q.
Proof.
  apply Qabs_Qle_condition. unfold dequantize, quantize.
  pose proof (Qround_away_near (x * inject_Z 512)) as H.
  change (1 / (2 * inject_Z 512))%Q with (1 # 1024)%Q.
  change (inject_Z 512) with (512 # 1)%Q in *. unfold Qdiv.
  change (/ (512 # 1))%Q with (1 # 512)%Q.
  generalize dependent (inject_Z (Qround_away (x * (512 # 1)))). intros f; intros. lra.
Qed.

(** ** LoadWeight *)

Lemma quantize_zero p : quantize 0 p = 0.
Proof.
  unfold quantize. change (0 * inject_Z p)%Q with ((0 * p) # 1)%Q.
  rewrite Qround_away_frac. by rewrite Z.mul_0_l.
Qed.

(** What [round(v * precision)] is, for a finite [float] and one of the two
    precisions: the quantization of the value of [v], unless the product
    overflows, which needs a quantization beyond [2^105]. *)
Lemma c_round_fmul v k :
  k = 5 \/ k = 9 ->
  valid_binary prec32 emax32 v = true -> is_finite v = true ->
  c_round (fmul v (float_of_int (2 ^ k))) = Some (quantize (SF2Q v) (2 ^ k))
  \/ (c_round (fmul v (float_of_int (2 ^ k))) = None
      /\ 2 ^ 105 <= Z.abs (quantize (SF2Q v) (2 ^ k))).
Proof.
  intros Hk Hv Hfin. destruct v as [s|s| |s m e]; try done.
  - left. cbn [SF2Q]. rewrite quantize_zero.
    by destruct Hk as [-> | ->].
  - cbn [valid_binary] in Hv.
    destruct (fmul_precision s m e k Hk Hv) as (j & Hj & Hmul).
    assert (Hq : quantize (SF2Q (S754_finite s m e)) (2 ^ k)
                 = cond_Zopp s (round_mag (Z.to_pos (Zpos m * 2 ^ j)) (e + k - j))).
    { rewrite quantize_finite, round_mag_scale by lia. done. }
    rewrite Hmul. destruct (Z.leb_spec (e + k - j) 104) as [Hle|Hgt].
    + left. cbn [c_round]. by rewrite Hq.
    + right. split; [done|]. rewrite Hq.
      pose proof (round_mag_lower (Z.to_pos (Zpos m * 2 ^ j)) (e + k - j)) as Hlow.
      assert (2 ^ 105 <= 2 ^ (e + k - j)) by (apply Z.pow_le_mono_r; lia).
      destruct s; cbn [cond_Zopp]; lia.
Qed.

Lemma precision_pow2 p : p = 32 \/ p = 512 -> exists k, (k = 5 \/ k = 9) /\ p = 2 ^ k.
Proof. intros [-> | ->]; [exists 5|exists 9]; auto. Qed.

Lemma LoadWeight_quantize v p :
  p = 32 \/ p = 512 ->
  valid_binary prec32 emax32 v = true -> is_finite v = true ->
  in_int16 (quantize (SF2Q v) p) ->
  LoadWeight v p = Some (quantize (SF2Q v) p).
Proof.
  intros (k & Hk & ->)%precision_pow2 Hv Hfin Hfit. unfold LoadWeight.
  destruct (c_round_fmul v k Hk Hv Hfin) as [-> | [_ Hbig]].
  - cbn. unfold in_int16 in Hfit.
    destruct (Z.leb_spec (-32768) (quantize (SF2Q v) (2 ^ k))); [|lia].
    destruct (Z.leb_spec (quantize (SF2Q v) (2 ^ k)) 32767); [done|lia].
  - unfold in_int16 in Hfit. change (2 ^ 105) with 40564819207303340847894502572032 in Hbig. lia.
Qed.

Lemma output_bias_quantize v :
  valid_binary prec32 emax32 v = true -> is_finite v = true ->
  in_int32 (quantize (SF2Q v) 512) ->
  double_to_int32 (c_round (fmul v (float_of_int 512))) = Some (quantize (SF2Q v) 512).
Proof.
  intros Hv Hfin Hfit. change 512 with (2 ^ 9).
  destruct (c_round_fmul v 9 (or_intror eq_refl) Hv Hfin) as [-> | [_ Hbig]].
  - cbn. unfold in_int32 in Hfit. change (2 ^ 9) with 512 in *.
    destruct (Z.leb_spec (-2147483648) (quantize (SF2Q v) 512)); [|lia].
    destruct (Z.leb_spec (quantize (SF2Q v) 512) 2147483647); [done|lia].
  - unfold in_int32 in Hfit. change (2 ^ 9) with 512 in *.
    change (2 ^ 105) with 40564819207303340847894502572032 in Hbig. lia.
Qed.

(** C9: for a finite [float] [v] and a precision [p] of the loader, when
    the rounded product fits [int16_t], [LoadWeight] stores exactly
    [round(v * p)] and dividing it by [p] again gives [v] back to within
    [1 / (2 p)]. *)
Theorem quantization_error v p :
  p = 32 \/ p = 512 ->
  valid_binary prec32 emax32 v = true -> is_finite v = true ->
  in_int16 (quantize (SF2Q v) p) ->
  exists q, LoadWeight v p = Some q
    /\ q = quantize (SF2Q v) p
    /\ (Qabs (dequantize q p - SF2Q v) <= 1 / (2 * inject_Z p))%Q.
Proof.
  intros Hp Hv Hfin Hfit. exists (quantize (SF2Q v) p).
  split; [by apply LoadWeight_quantize|]. split; [done|].
  destruct Hp as [-> | ->]; [apply dequantize_error_32|apply dequantize_error_512].
Qed.

(** ** Decoding *)

Lemma digits2_pos_bounds p :
  2 ^ (Zpos (digits2_pos p) - 1) <= Zpos p < 2 ^ Zpos (digits2_pos p).
Proof.
  induction p as [p IH|p IH|]; cbn [digits2_pos]; [| |done].
  - rewrite Pos2Z.inj_succ, Z.pow_succ_r by lia.
    replace (Z.succ (Zpos (digits2_pos p)) - 1)
      with (Z.succ (Zpos (digits2_pos p) - 1)) by lia.
    rewrite Z.pow_succ_r by lia. lia.
  - rewrite Pos2Z.inj_succ, Z.pow_succ_r by lia.
    replace (Z.succ (Zpos (digits2_pos p)) - 1)
      with (Z.succ (Zpos (digits2_pos p) - 1)) by lia.
    rewrite Z.pow_succ_r by lia. lia.
Qed.

Lemma digits2_pos_le p n : 0 <= n -> Zpos p < 2 ^ n -> Zpos (digits2_pos p) <= n.
Proof.
  intros Hn Hp. pose proof (digits2_pos_bounds p) as [Hlo _].
  destruct (Z.le_gt_cases (Zpos (digits2_pos p)) n) as [|Hgt]; [done|].
  assert (2 ^ n <= 2 ^ (Zpos (digits2_pos p) - 1)) by (apply Z.pow_le_mono_r; lia). lia.
Qed.

Lemma digits2_pos_ge p n : 0 <= n -> 2 ^ n <= Zpos p -> n + 1 <= Zpos (digits2_pos p).
Proof.
  intros Hn Hp. pose proof (digits2_pos_bounds p) as [_ Hhi].
  destruct (Z.le_gt_cases (n + 1) (Zpos (digits2_pos p))) as [|Hgt]; [done|].
  assert (2 ^ Zpos (digits2_pos p) <= 2 ^ n) by (apply Z.pow_le_mono_r; lia). lia.
Qed.

(** Every bit pattern decodes to a binary32 number in canonical form. *)
Lemma float_of_bits_valid x : valid_binary prec32 emax32 (float_of_bits x) = true.
Proof.
  unfold float_of_bits.
  pose proof (Z.mod_pos_bound (x / 2 ^ 23) (2 ^ 8) eq_refl) as He.
  pose proof (Z.mod_pos_bound x (2 ^ 23) eq_refl) as Hm.
  set (e := (x / 2 ^ 23) mod 2 ^ 8) in *. set (m := x mod 2 ^ 23) in *.
  change (2 ^ 8) with 256 in He.
  destruct (Z.eqb_spec e 0) as [He0|He0].
  - destruct m as [|p|p] eqn:Em; [done| |done].
    cbn [valid_binary]. unfold bounded, canonical_mantissa, fexp, emin, prec32, emax32.
    pose proof (digits2_pos_le p 23). apply andb_true_iff. split; [|done].
    apply Z.eqb_eq. lia.
  - destruct (Z.eqb_spec e 255); [by destruct (m =? 0)|].
    cbn [valid_binary]. unfold bounded, canonical_mantissa, fexp, emin, prec32, emax32.
    assert (Hpos : Zpos (Z.to_pos (m + 2 ^ 23)) = m + 2 ^ 23) by (apply Z2Pos.id; lia).
    pose proof (digits2_pos_le (Z.to_pos (m + 2 ^ 23)) 24).
    pose proof (digits2_pos_ge (Z.to_pos (m + 2 ^ 23)) 23).
    change (2 ^ 24) with (2 ^ 23 + 2 ^ 23) in *.
    apply andb_true_iff. split; [apply Z.eqb_eq|apply Z.leb_le]; lia.
Qed.

(** ** Reads *)

Lemma read_bytes_Some E p n :
  0 <= p -> p + Z.of_nat n <= Z.of_nat (length E) ->
  read_bytes E p n = Some (take n (drop (Z.to_nat p) E)).
Proof.
  intros Hp Hn. unfold read_bytes.
  destruct (Z.leb_spec 0 p); [|lia].
  destruct (Z.leb_spec (p + Z.of_nat n) (Z.of_nat (length E))); [done|lia].
Qed.

Lemma read_float_Some E data :
  0 <= data -> data + 4 <= Z.of_nat (length E) ->
  read_float E data = Some (float_at E data).
Proof.
  intros Hd Hl. unfold read_float, le_load.
  rewrite read_bytes_Some by (done || lia). done.
Qed.

(** The loop of [LoadWeight] stores the quantizations of the [n] floats it
    walks over and leaves [data] behind the last one. *)
Lemma load_weights_spec E p (n : nat) : forall data,
  p = 32 \/ p = 512 ->
  0 <= data -> data + 4 * Z.of_nat n <= Z.of_nat (length E) ->
  (forall j, 0 <= j < Z.of_nat n -> quantizes16 (float_at E (data + 4 * j)) p) ->
  load_weights E n data p
  = Some ((fun j => quantize (SF2Q (float_at E (data + 4 * j))) p) <$> seqZ 0 (Z.of_nat n),
          data + 4 * Z.of_nat n).
Proof.
  induction n as [|n IH]; intros data Hp Hd Hlen Hq.
  - cbn. do 2 f_equal. lia.
  - cbn [load_weights]. rewrite read_float_Some by lia. cbn [mbind option_bind].
    destruct (Hq 0) as [Hfin Hfit]; [lia|]. rewrite Z.mul_0_r, Z.add_0_r in Hfin, Hfit.
    rewrite LoadWeight_quantize by (done || apply float_of_bits_valid).
    cbn [mbind option_bind].
    rewrite IH; [|done|lia|lia|].
    + cbn [mbind option_bind]. do 2 f_equal; [|lia].
      rewrite (seqZ_cons 0 (Z.of_nat (S n))) by lia. rewrite fmap_cons.
      rewrite Z.mul_0_r, Z.add_0_r. f_equal.
      replace (Z.pred (Z.of_nat (S n))) with (Z.of_nat n) by lia.
      rewrite <- (fmap_add_seqZ 1 0), <- list_fmap_compose.
      apply list_fmap_ext. intros _ j _. cbn. do 3 f_equal. lia.
    + intros j Hj. replace (data + 4 + 4 * j) with (data + 4 * (j + 1)) by lia.
      apply Hq. lia.
Qed.

(** ** LoadDefaultNN *)

Lemma magic_mismatch_spec E :
  (4 <= length E)%nat -> magic_mismatch E = Some (negb (has_magic E)).
Proof.
  intros Hl. destruct E as [|b0 [|b1 [|b2 [|b3 E]]]]; try (simpl in Hl; lia).
  unfold magic_mismatch, has_magic, Embed_at.
  change (Z.to_nat 0) with 0%nat. change (Z.to_nat 1) with 1%nat.
  change (Z.to_nat 2) with 2%nat. change (Z.to_nat 3) with 3%nat.
  cbn [Z.ltb Z.compare lookup list_lookup mbind option_bind].
  destruct (Byte.eqb b0 "B"); [|done].
  destruct (Byte.eqb b1 "R"); [|done].
  destruct (Byte.eqb b2 "K"); [|done]. done.
Qed.

(** C6: on a resource that is long enough and whose floats quantize into
    their integer types, [LoadDefaultNN] succeeds; it takes the floats in
    order from byte offset 12 on and stores [round(value * 32)] for the
    [N_FEATURES * N_HIDDEN] feature weights and the [N_HIDDEN] hidden
    biases, [round(value * 512)] for the [2 * N_HIDDEN] hidden weights and
    for the output bias, and bytes 4 to 11 as the hash. *)
Theorem LoadDefaultNN_layout E stdout :
  let nfw := N_FEATURES * N_HIDDEN in
  0 <= nfw -> 0 <= N_HIDDEN ->
  12 + 4 * (nfw + N_HIDDEN + N_HIDDEN * 2 + 1) <= Z.of_nat (length E) ->
  (forall j, 0 <= j < nfw -> quantizes16 (resource_float E j) 32) ->
  (forall j, 0 <= j < N_HIDDEN -> quantizes16 (resource_float E (nfw + j)) 32) ->
  (forall j, 0 <= j < N_HIDDEN * 2 ->
     quantizes16 (resource_float E (nfw + N_HIDDEN + j)) 512) ->
  quantizes32 (resource_float E (nfw + N_HIDDEN + N_HIDDEN * 2)) 512 ->
  exists G out,
    LoadDefaultNN E stdout = Some (G, out)
    /\ FEATURE_WEIGHTS G
       = (fun j => quantize (SF2Q (resource_float E j)) 32) <$> seqZ 0 nfw
    /\ HIDDEN_BIASES G
       = (fun j => quantize (SF2Q (resource_float E (nfw + j))) 32) <$> seqZ 0 N_HIDDEN
    /\ HIDDEN_WEIGHTS G
       = (fun j => quantize (SF2Q (resource_float E (nfw + N_HIDDEN + j))) 512)
           <$> seqZ 0 (N_HIDDEN * 2)
    /\ OUTPUT_BIAS G
       = quantize (SF2Q (resource_float E (nfw + N_HIDDEN + N_HIDDEN * 2))) 512
    /\ DEFAULT_NN_HASH G = resource_hash E.
Proof.
  intros nfw Hnfw HN Hlen Hfw Hhb Hhw Hob.
  unfold LoadDefaultNN. rewrite magic_mismatch_spec by lia.
  cbn [mbind option_bind]. unfold le_load.
  rewrite read_bytes_Some by lia. cbn [fmap option_fmap option_map mbind option_bind].
  change (4 * 3) with 12. unfold QUANTIZATION_PRECISION_IN, QUANTIZATION_PRECISION_OUT.
  fold nfw.
  rewrite (load_weights_spec E 32 (Z.to_nat nfw) 12); [|by left|lia|lia|].
  2:{ intros j Hj. apply Hfw. lia. }
  cbn [mbind option_bind]. rewrite Z2Nat.id by done.
  rewrite (load_weights_spec E 32 (Z.to_nat N_HIDDEN)); [|by left|lia|lia|].
  2:{ intros j Hj. replace (12 + 4 * nfw + 4 * j) with (12 + 4 * (nfw + j)) by lia.
      apply Hhb. lia. }
  cbn [mbind option_bind]. rewrite Z2Nat.id by done.
  rewrite (load_weights_spec E 512 (Z.to_nat (N_HIDDEN * 2))); [|by right|lia|lia|].
  2:{ intros j Hj.
      replace (12 + 4 * nfw + 4 * N_HIDDEN + 4 * j)
        with (12 + 4 * (nfw + N_HIDDEN + j)) by lia.
      apply Hhw. lia. }
  cbn [mbind option_bind]. rewrite Z2Nat.id by lia.
  rewrite read_float_Some by lia. cbn [mbind option_bind].
  replace (12 + 4 * nfw + 4 * N_HIDDEN + 4 * (N_HIDDEN * 2))
    with (12 + 4 * (nfw + N_HIDDEN + N_HIDDEN * 2)) by lia.
  fold (resource_float E (nfw + N_HIDDEN + N_HIDDEN * 2)).
  destruct Hob as [Hfin Hfit].
  rewrite output_bias_quantize by (done || apply float_of_bits_valid).
  cbn [mbind option_bind]. eexists _, _. split; [done|]. cbn.
  split; [done|]. split; [|split; [|done]].
  - apply list_fmap_ext. intros _ j _. unfold resource_float. do 3 f_equal. lia.
  - apply list_fmap_ext. intros _ j _. unfold resource_float. do 3 f_equal. lia.
Qed.




Lemma load_weights_data E precision (n : nat) : forall data ws data',
  load_weights E n data precision = Some (ws, data') -> data' = data + 4 * Z.of_nat n.
Proof.
  induction n as [|n IH]; intros data ws data' Hload.
  - cbn in Hload. injection Hload as _ <-. lia.
  - cbn [load_weights] in Hload.
    destruct (read_float E data) as [v|]; [|done]. cbn [mbind option_bind] in Hload.
    destruct (LoadWeight v precision) as [w|]; [|done]. cbn [mbind option_bind] in Hload.
    destruct (load_weights E n (data + 4) precision) as [[ws1 d1]|] eqn:Hrec; [|done].
    cbn [mbind option_bind] in Hload. injection Hload as _ <-.
    apply IH in Hrec. lia.
Qed.




(** * Further properties of the code *)

(** ** Accumulators keep their shape *)

Lemma lanes_is_accumulator f : is_accumulator (lanes (fun i => to_int16 (f i))).
Proof.
  split; [apply length_lanes|]. unfold lanes. apply Forall_fmap, Forall_forall.
  intros i _. apply to_int16_range.
Qed.

Lemma memcpy_acc_is_accumulator a : Forall in_int16 a -> is_accumulator (memcpy_acc a).
Proof.
  intros Ha. split; [apply length_lanes|]. unfold memcpy_acc, lanes.
  apply Forall_fmap, Forall_forall. intros i _. by apply rd_in_int16.
Qed.

Lemma foldl_add_row_is_accumulator G a features :
  is_accumulator a -> is_accumulator (foldl (add_row G) a features).
Proof.
  revert a. induction features as [|f fs IH]; intros a Ha; [done|].
  cbn [foldl]. apply IH, lanes_is_accumulator.
Qed.

Lemma foldl_sub_row_is_accumulator G a features :
  is_accumulator a -> is_accumulator (foldl (sub_row G) a features).
Proof.
  revert a. induction features as [|f fs IH]; intros a Ha; [done|].
  cbn [foldl]. apply IH, lanes_is_accumulator.
Qed.

Lemma refresh_loop_is_accumulator fuel G board kingSq perspective : forall occ acc,
  is_accumulator acc ->
  is_accumulator (refresh_loop fuel G board kingSq perspective occ acc).
Proof.
  induction fuel as [|fuel IH]; intros occ acc Hacc; [done|].
  cbn [refresh_loop]. destruct (occ =? 0); [done|].
  cbn. apply IH, lanes_is_accumulator.
Qed.

(** Once the hidden biases are 16-bit values, every Accumulator the code
    produces has [N_HIDDEN] lanes that are 16-bit values: the one
    [RefreshAccumulator] computes, for any board, and the one [ApplyUpdates]
    writes from a previous Accumulator of that shape, for any diff. *)
Lemma accumulators_keep_shape G a0 board perspective updates :
  Forall in_int16 (HIDDEN_BIASES G) ->
  is_accumulator (RefreshAccumulator G a0 board perspective)
  /\ (valid_slot board perspective (ply board) ->
      is_accumulator (acc_at board perspective (ply board - 1)) ->
      is_accumulator (acc_at (ApplyUpdates G board perspective updates).2
                        perspective (ply board))).
Proof.
  intros HB. split.
  - unfold RefreshAccumulator. by apply refresh_loop_is_accumulator, memcpy_acc_is_accumulator.
  - intros Hslot [Hw Hr]. unfold ApplyUpdates. cbn [snd].
    rewrite acc_at_set_acc_eq by done.
    destruct (nr updates =? 0); [by apply memcpy_acc_is_accumulator|].
    rewrite (foldl_fmap_r (add_row G) (rd (additions updates))).
    rewrite (foldl_fmap_r (sub_row G) (rd (removals updates))).
    apply foldl_add_row_is_accumulator, foldl_sub_row_is_accumulator, lanes_is_accumulator.
Qed.

(** ** Doing and undoing a move *)

Lemma is_accumulator_lanes a :
  is_accumulator a -> a = lanes (fun i => to_int16 (rd a i)).
Proof.
  intros [Hw Hr]. rewrite <- (memcpy_acc_id a) at 1 by done.
  apply lanes_ext. intros i _. symmetry. by apply to_int16_id, rd_in_int16.
Qed.

Lemma acc_at_with_ply board q p r : acc_at (with_ply board q) p r = acc_at board p r.
Proof. done. Qed.

Lemma valid_slot_with_ply board q p r : valid_slot board p r -> valid_slot (with_ply board q) p r.
Proof. done. Qed.

Lemma valid_slot_set_acc board p q a p' q' :
  valid_slot board p q -> valid_slot (set_acc board p' q' a) p q.
Proof.
  intros (Hp & Hq & row & Hrow & Hlen). split; [done|]. split; [done|].
  unfold set_acc. destruct ((p' <? 0) || (q' <? 0)); [by exists row|]. cbn.
  destruct (decide (Z.to_nat p' = Z.to_nat p)) as [Heq|Hne].
  - exists (<[Z.to_nat q' := a]> row). rewrite Heq, list_lookup_alter_eq, Hrow.
    split; [done|]. by rewrite length_insert.
  - exists row. by rewrite list_lookup_alter_ne.
Qed.

(** X1: a move made and taken back restores the Accumulator.  When
    [ApplyUpdates] has applied a diff with at least one removal and one
    addition at a ply, applying at the next ply the diff with removals and
    additions exchanged writes, lane for lane, the Accumulator the first call
    started from. *)
Theorem ApplyUpdates_undo G board persp updates :
  1 <= nr updates -> 1 <= na updates ->
  valid_slot board persp (ply board) ->
  valid_slot board persp (ply board + 1) ->
  is_accumulator (acc_at board persp (ply board - 1)) ->
  let made := (ApplyUpdates G board persp updates).2 in
  let unmade := (ApplyUpdates G (with_ply made (ply board + 1)) persp (undo_update updates)).2 in
  acc_at unmade persp (ply board + 1) = acc_at board persp (ply board - 1).
Proof.
  intros Hnr Hna Hslot Hnext Hprev made unmade.
  pose proof (is_accumulator_lanes _ Hprev) as Hlanes.
  pose proof (ApplyUpdates_output G board persp updates _ Hnr Hslot Hlanes) as Hmade.
  fold made in Hmade.
  assert (Hply : ply (with_ply made (ply board + 1)) = ply board + 1) by done.
  assert (Hunmade : acc_at unmade persp (ply (with_ply made (ply board + 1)))
                    = lanes (fun i => to_int16
                        (rd (acc_at board persp (ply board - 1)) i
                         - Zsum ((fun f => row_lane G f i) <$> removed_features updates)
                         + Zsum ((fun f => row_lane G f i) <$> added_features updates)
                         - Zsum ((fun f => row_lane G f i) <$> removed_features (undo_update updates))
                         + Zsum ((fun f => row_lane G f i) <$> added_features (undo_update updates))))).
  { unfold unmade. apply ApplyUpdates_output.
    - done.
    - rewrite Hply. apply valid_slot_with_ply, valid_slot_set_acc, Hnext.
    - rewrite Hply, acc_at_with_ply. replace (ply board + 1 - 1) with (ply board) by lia.
      exact Hmade. }
  rewrite Hply in Hunmade. rewrite Hunmade.
  etrans; [|symmetry; exact Hlanes].
  apply lanes_ext. intros i _.
  change (removed_features (undo_update updates)) with (added_features updates).
  change (added_features (undo_update updates)) with (removed_features updates).
  f_equal. lia.
Qed.

(** ** How calls of ApplyUpdates compose *)

Lemma acc_at_set_acc_ne board p q a p' q' :
  ~ (p' = p /\ q' = q) -> acc_at (set_acc board p q a) p' q' = acc_at board p' q'.
Proof.
  intros Hne. unfold acc_at.
  destruct (Z.ltb_spec p' 0); [done|]. destruct (Z.ltb_spec q' 0); [done|].
  cbn [orb]. f_equal. apply set_acc_lookup_ne. lia.
Qed.

Lemma ply_set_acc board p q a : ply (set_acc board p q a) = ply board.
Proof. unfold set_acc. by destruct ((p <? 0) || (q <? 0)). Qed.

(** The board [ApplyUpdates] returns: one store, of lanes that are computed
    from the previous ply's Accumulator and the diff alone. *)
Lemma ApplyUpdates_store G board board' persp updates :
  ply board' = ply board ->
  acc_at board' persp (ply board - 1) = acc_at board persp (ply board - 1) ->
  exists output,
    (ApplyUpdates G board persp updates).2 = set_acc board persp (ply board) output
    /\ (ApplyUpdates G board' persp updates).2 = set_acc board' persp (ply board) output.
Proof.
  intros Hply Hprev. unfold ApplyUpdates. cbn [snd]. rewrite Hply, Hprev. eauto.
Qed.

Lemma set_acc_set_acc board p q a a' :
  set_acc (set_acc board p q a) p q a' = set_acc board p q a'.
Proof.
  unfold set_acc. destruct ((p <? 0) || (q <? 0)) eqn:E; [done|].
  cbn. f_equal. apply list_eq. intros i.
  destruct (decide (Z.to_nat p = i)) as [<-|Hne].
  - rewrite !list_lookup_alter_eq. destruct (accumulators board !! Z.to_nat p); [|done].
    cbn. by rewrite list_insert_insert_eq.
  - by rewrite !list_lookup_alter_ne.
Qed.

Lemma set_acc_commute board p q a p' q' a' :
  p <> p' ->
  set_acc (set_acc board p q a) p' q' a' = set_acc (set_acc board p' q' a') p q a.
Proof.
  intros Hne. unfold set_acc.
  destruct (Z.ltb_spec p 0), (Z.ltb_spec q 0), (Z.ltb_spec p' 0), (Z.ltb_spec q' 0);
    cbn; try done.
  f_equal. apply list_eq. intros i.
  destruct (decide (Z.to_nat p = i)) as [<-|Hi];
    destruct (decide (Z.to_nat p' = Z.to_nat p)) as [Heq|Hi']; try lia.
  - by rewrite list_lookup_alter_ne, !list_lookup_alter_eq, list_lookup_alter_ne.
  - destruct (decide (Z.to_nat p' = i)) as [<-|Hj].
    + by rewrite list_lookup_alter_eq, !list_lookup_alter_ne, list_lookup_alter_eq by lia.
    + by rewrite !list_lookup_alter_ne.
Qed.

(** X2: the updates of the two perspectives do not interfere: applying the
    diff of one perspective and then the diff of the other leaves the same
    board as applying them in the other order. *)
Theorem ApplyUpdates_perspectives_commute G board persp persp' updates updates' :
  persp <> persp' ->
  (ApplyUpdates G (ApplyUpdates G board persp updates).2 persp' updates').2
  = (ApplyUpdates G (ApplyUpdates G board persp' updates').2 persp updates).2.
Proof.
  intros Hne.
  destruct (ApplyUpdates_store G board (ApplyUpdates G board persp' updates').2 persp updates)
    as (out & Hb & Hb').
  { apply ply_set_acc. }
  { apply acc_at_set_acc_ne. intros [H _]. by apply Hne. }
  destruct (ApplyUpdates_store G board (ApplyUpdates G board persp updates).2 persp' updates')
    as (out' & Hc & Hc').
  { apply ply_set_acc. }
  { apply acc_at_set_acc_ne. intros [H _]. by apply Hne. }
  rewrite Hb', Hc', Hb, Hc. by apply set_acc_commute.
Qed.

(** X3: a slot of the history is reused: when a second diff is applied for
    the same perspective at the same ply, the board is the one the second
    diff alone would leave, whatever the first diff was (the call reads the
    previous ply and overwrites the current one). *)
Theorem ApplyUpdates_overwrites G board persp updates updates' :
  (ApplyUpdates G (ApplyUpdates G board persp updates).2 persp updates').2
  = (ApplyUpdates G board persp updates').2.
Proof.
  destruct (ApplyUpdates_store G board (ApplyUpdates G board persp updates).2 persp updates')
    as (out' & Hc & Hc').
  { apply ply_set_acc. }
  { apply acc_at_set_acc_ne. lia. }
  rewrite Hc', Hc. apply set_acc_set_acc.
Qed.

(** X4: with a removal, the Accumulator [ApplyUpdates] writes depends only
    on the net change of the diff, not on the order or the split of its
    entries: two diffs with the same removals-minus-additions (as multisets)
    write the same Accumulator, and a diff whose additions are its removals
    in any order writes the previous Accumulator again. *)
Theorem ApplyUpdates_net_change G board persp updates :
  1 <= nr updates ->
  valid_slot board persp (ply board) ->
  is_accumulator (acc_at board persp (ply board - 1)) ->
  (forall updates',
     1 <= nr updates' ->
     removed_features updates ++ added_features updates'
       ≡ₚ removed_features updates' ++ added_features updates ->
     acc_at (ApplyUpdates G board persp updates).2 persp (ply board)
     = acc_at (ApplyUpdates G board persp updates').2 persp (ply board))
  /\ (removed_features updates ≡ₚ added_features updates ->
      acc_at (ApplyUpdates G board persp updates).2 persp (ply board)
      = acc_at board persp (ply board - 1)).
Proof.
  intros Hnr Hslot Hprev.
  pose proof (is_accumulator_lanes _ Hprev) as Hlanes.
  rewrite (ApplyUpdates_output G board persp updates _ Hnr Hslot Hlanes).
  split.
  - intros updates' Hnr' Hperm.
    rewrite (ApplyUpdates_output G board persp updates' _ Hnr' Hslot Hlanes).
    apply lanes_ext. intros i _. f_equal.
    assert (Hsum : Zsum ((fun f => row_lane G f i) <$> removed_features updates)
                   + Zsum ((fun f => row_lane G f i) <$> added_features updates')
                   = Zsum ((fun f => row_lane G f i) <$> removed_features updates')
                     + Zsum ((fun f => row_lane G f i) <$> added_features updates)).
    { rewrite <- !Zsum_app, <- !fmap_app. apply Zsum_Permutation. by apply fmap_Permutation. }
    lia.
  - intros Hperm. etrans; [|symmetry; exact Hlanes].
    apply lanes_ext. intros i _. f_equal.
    assert (Hsum : Zsum ((fun f => row_lane G f i) <$> removed_features updates)
                   = Zsum ((fun f => row_lane G f i) <$> added_features updates)).
    { apply Zsum_Permutation. by apply fmap_Permutation. }
    lia.
Qed.

(** ** The score *)

Lemma quotient_bound r :
  in_int32 r ->
  -131072 <= r ÷ QUANTIZATION_PRECISION_IN ÷ QUANTIZATION_PRECISION_OUT <= 131071.
Proof.
  intros [Hlo Hhi]. unfold QUANTIZATION_PRECISION_IN, QUANTIZATION_PRECISION_OUT.
  assert (-67108864 <= r ÷ 32 <= 67108863).
  { split.
    - change (-67108864) with (-2147483648 ÷ 32). by apply Z.quot_le_mono.
    - change 67108863 with (2147483647 ÷ 32). by apply Z.quot_le_mono. }
  split.
  - change (-131072) with (-67108864 ÷ 512). apply Z.quot_le_mono; lia.
  - change 131071 with (67108863 ÷ 512). apply Z.quot_le_mono; lia.
Qed.

(** X5: whatever the accumulators and the weights, the score of every build
    lies between -131072 and 131071: a 32-bit total divided by 32 and by
    512. *)
Theorem OutputLayer_bounded b G stm xstm :
  -131072 <= OutputLayer b G stm xstm <= 131071.
Proof.
  destruct b; cbn [OutputLayer].
  - unfold OutputLayer_avx2. destruct (foldl _ _ _) as [s0 s1].
    apply quotient_bound, to_int32_range.
  - unfold OutputLayer_sse. destruct (foldl _ _ _) as [s0 s1].
    apply quotient_bound, to_int32_range.
  - rewrite OutputLayer_scalar_total. apply quotient_bound, to_int32_range.
Qed.

Lemma foldl_ext_in {A B} (f g : A -> B -> A) (l : list B) :
  (forall x, x ∈ l -> forall a, f a x = g a x) -> forall a, foldl f a l = foldl g a l.
Proof.
  induction l as [|x l IH]; intros Hfg a; [done|]. cbn [foldl].
  rewrite (Hfg x) by apply list_elem_of_here.
  apply IH. intros y Hy. apply Hfg. by apply list_elem_of_further.
Qed.

Lemma max_idemp x : max (max x 0) 0 = max x 0.
Proof.
  unfold max. destruct (x >? 0) eqn:E; [by rewrite E|reflexivity].
Qed.

Lemma max_rd_rectified a i : max (rd (rectified a) i) 0 = max (rd a i) 0.
Proof.
  unfold rd, rectified. destruct (i <? 0); [done|].
  rewrite list_lookup_fmap. destruct (lookup _ _) as [x|]; [|reflexivity].
  apply max_idemp.
Qed.

(** The rectified lanes a vector round loads. *)
Lemma max_epi16_vload a off width :
  max_epi16 (vload a off width) (setzero (Z.to_nat width))
  = (fun k => max (rd a (off + k)) 0) <$> seqZ 0 width.
Proof.
  unfold vload. rewrite <- (length_seqZ 0 width) at 1. apply max_epi16_zero.
Qed.

Lemma vec_step_ext G width stm xstm stm' xstm' s j :
  (forall k, 0 <= k < width -> max (rd stm (j * width + k)) 0 = max (rd stm' (j * width + k)) 0) ->
  (forall k, 0 <= k < width -> max (rd xstm (j * width + k)) 0 = max (rd xstm' (j * width + k)) 0) ->
  vec_step G width stm xstm s j = vec_step G width stm' xstm' s j.
Proof.
  intros Hs Hx. unfold vec_step. rewrite !max_epi16_vload.
  assert (H0 : (fun k => max (rd stm (j * width + k)) 0) <$> seqZ 0 width
               = (fun k => max (rd stm' (j * width + k)) 0) <$> seqZ 0 width).
  { apply list_fmap_ext. intros n k Hk%lookup_seqZ. apply Hs. lia. }
  assert (H1 : (fun k => max (rd xstm (j * width + k)) 0) <$> seqZ 0 width
               = (fun k => max (rd xstm' (j * width + k)) 0) <$> seqZ 0 width).
  { apply list_fmap_ext. intros n k Hk%lookup_seqZ. apply Hx. lia. }
  by rewrite H0, H1.
Qed.

(** X6: lanes below zero contribute nothing: in every build the score of two
    accumulators is the score of the same accumulators with their negative
    lanes set to zero. *)
Theorem OutputLayer_rectified b G stm xstm :
  OutputLayer b G (rectified stm) (rectified xstm) = OutputLayer b G stm xstm.
Proof.
  destruct b; cbn [OutputLayer].
  - unfold OutputLayer_avx2.
    rewrite (foldl_ext_in (vec_step G WIDTH_AVX2 (rectified stm) (rectified xstm))
                          (vec_step G WIDTH_AVX2 stm xstm)); [done|].
    intros j _ s. apply vec_step_ext; intros k _; apply max_rd_rectified.
  - unfold OutputLayer_sse.
    rewrite (foldl_ext_in (vec_step G WIDTH_SSE (rectified stm) (rectified xstm))
                          (vec_step G WIDTH_SSE stm xstm)); [done|].
    intros j _ s. apply vec_step_ext; intros k _; apply max_rd_rectified.
  - unfold OutputLayer_scalar. f_equal. f_equal.
    apply foldl_ext_in. intros i _ r. by rewrite !max_rd_rectified.
Qed.

(** X7: the SSE kernel needs only that its own width divides the hidden
    width: for every [N_HIDDEN] that is a multiple of 8 it returns the score
    of the scalar kernel. *)
Theorem OutputLayer_sse_scalar G stm xstm :
  (8 | N_HIDDEN) -> OutputLayer SSE G stm xstm = OutputLayer Scalar G stm xstm.
Proof.
  intros H8. cbn [OutputLayer].
  by rewrite OutputLayer_sse_total, OutputLayer_scalar_total.
Qed.

(** ** Incremental evaluation *)

Lemma ApplyUpdates_describes G board persp updates before after :
  1 <= nr updates ->
  valid_slot board persp (ply board) ->
  acc_at board persp (ply board - 1) = feature_sum G before ->
  describes_change updates before after ->
  acc_at (ApplyUpdates G board persp updates).2 persp (ply board) = feature_sum G after.
Proof.
  intros Hnr Hslot Hprev Hchange.
  erewrite ApplyUpdates_output by done.
  apply lanes_ext. intros i _. f_equal. unfold exact_lane.
  assert (Hsum :
    Zsum ((fun f => row_lane G f i) <$> removed_features updates)
    + Zsum ((fun f => row_lane G f i) <$> after)
    = Zsum ((fun f => row_lane G f i) <$> added_features updates)
      + Zsum ((fun f => row_lane G f i) <$> before)).
  { rewrite <- !Zsum_app, <- !fmap_app.
    apply Zsum_Permutation. by apply fmap_Permutation. }
  lia.
Qed.

(** X9: the engine's incremental evaluation agrees with [Predict].  On the
    board after a move, whose history holds at the previous ply the feature
    sums of the position before it, one [ApplyUpdates] per perspective with
    a diff that describes the move leaves at the current ply two
    accumulators whose [OutputLayer] score is the score [Predict] computes
    from scratch, in every build. *)
Theorem incremental_score_is_Predict b G board us ux before_s before_x sqs a0 a1 :
  stm board <> xstm board ->
  0 <= OccBB board BOTH < 2 ^ 64 ->
  Forall in_int16 (HIDDEN_BIASES G) ->
  enumerates_occupied board sqs ->
  1 <= nr us -> 1 <= nr ux ->
  valid_slot board (stm board) (ply board) ->
  valid_slot board (xstm board) (ply board) ->
  acc_at board (stm board) (ply board - 1) = feature_sum G before_s ->
  acc_at board (xstm board) (ply board - 1) = feature_sum G before_x ->
  describes_change us before_s (board_features board (stm board) sqs) ->
  describes_change ux before_x (board_features board (xstm board) sqs) ->
  let board' := (ApplyUpdates G (ApplyUpdates G board (stm board) us).2 (xstm board) ux).2 in
  OutputLayer b G (acc_at board' (stm board) (ply board)) (acc_at board' (xstm board) (ply board))
  = (Predict b G board a0 a1).1.
Proof.
  intros Hne Hocc HB Hsqs Hnrs Hnrx Hslot_s Hslot_x Hprev_s Hprev_x Hs Hx board'.
  unfold Predict. cbn [fst].
  rewrite (RefreshAccumulator_enumerated G a0 board (stm board) sqs) by done.
  rewrite (RefreshAccumulator_enumerated G a1 board (xstm board) sqs) by done.
  set (b1 := (ApplyUpdates G board (stm board) us).2) in *.
  assert (Hply : ply b1 = ply board) by apply ply_set_acc.
  assert (Hb1 : acc_at b1 (stm board) (ply board) = feature_sum G (board_features board (stm board) sqs)).
  { by apply (ApplyUpdates_describes G board (stm board) us before_s). }
  assert (Hkeep : acc_at b1 (xstm board) (ply board - 1) = feature_sum G before_x).
  { rewrite <- Hprev_x. apply acc_at_set_acc_ne. intros [E _]. by apply Hne. }
  assert (Hslot1 : valid_slot b1 (xstm board) (ply b1)).
  { rewrite Hply. by apply valid_slot_set_acc. }
  f_equal.
  - rewrite <- Hb1. subst board'. unfold ApplyUpdates at 1. cbn [snd].
    apply acc_at_set_acc_ne. intros [E _]. by apply Hne.
  - subst board'. rewrite <- Hply.
    apply (ApplyUpdates_describes G b1 (xstm board) ux before_x); [done|done| |done].
    by rewrite Hply.
Qed.

(** ** LoadWeight *)

Lemma double_to_int16_Some r q :
  double_to_int16 r = Some q -> r = Some q /\ in_int16 q.
Proof.
  unfold double_to_int16. destruct r as [z|]; [|discriminate]. cbn.
  destruct (Z.leb_spec (-32768) z); [|discriminate].
  destruct (Z.leb_spec z 32767); [|discriminate].
  cbn. intros [= <-]. split; [done|]. unfold in_int16. lia.
Qed.

Lemma LoadWeight_Some v p q :
  p = 32 \/ p = 512 ->
  valid_binary prec32 emax32 v = true ->
  LoadWeight v p = Some q ->
  is_finite v = true /\ in_int16 (quantize (SF2Q v) p) /\ q = quantize (SF2Q v) p.
Proof.
  intros Hp Hv Hload. destruct (is_finite v) eqn:Hfin.
  - split; [done|].
    destruct (precision_pow2 p Hp) as (k & Hk & ->).
    apply double_to_int16_Some in Hload as [Hr Hq].
    destruct (c_round_fmul v k Hk Hv Hfin) as [E|[E _]]; rewrite E in Hr.
    + injection Hr as <-. done.
    + discriminate.
  - exfalso. destruct v as [s|s| |s m e]; try discriminate;
      destruct Hp as [-> | ->]; vm_compute in Hload; discriminate.
Qed.

(** X10: [LoadWeight] has a defined result exactly on the numbers whose
    quantization fits 16 bits: for a [float] [v] and the precision 32 or
    512 it returns [q] if and only if [v] is finite, the rounded product of
    its value with the precision lies in the range of [int16_t], and [q] is
    that integer.  An infinity, a NaN or a product out of range has no
    defined conversion. *)
Theorem LoadWeight_defined_iff v p q :
  p = 32 \/ p = 512 ->
  valid_binary prec32 emax32 v = true ->
  LoadWeight v p = Some q
  <-> is_finite v = true /\ in_int16 (quantize (SF2Q v) p) /\ q = quantize (SF2Q v) p.
Proof.
  intros Hp Hv. split.
  - by apply LoadWeight_Some.
  - intros (Hfin & Hfit & ->). by apply LoadWeight_quantize.
Qed.

Lemma cond_Zopp_negb s z : cond_Zopp (negb s) z = - cond_Zopp s z.
Proof. destruct s; cbn; lia. Qed.

Lemma quantize_SFopp v k :
  0 <= k -> quantize (SF2Q (SFopp v)) (2 ^ k) = - quantize (SF2Q v) (2 ^ k).
Proof.
  intros Hk. destruct v as [s|s| |s m e]; cbn [SFopp].
  - change (SF2Q (S754_zero _)) with 0%Q. by rewrite !quantize_zero.
  - change (SF2Q (S754_infinity _)) with 0%Q. by rewrite !quantize_zero.
  - change (SF2Q S754_nan) with 0%Q. by rewrite !quantize_zero.
  - rewrite !quantize_finite by done. apply cond_Zopp_negb.
Qed.

(** X11: the rounding of [LoadWeight] is symmetric about zero.  If a
    [float] loads as [q] and [q] is not -32768, the negated [float] loads
    as [-q]. *)
Theorem LoadWeight_odd v p q :
  p = 32 \/ p = 512 ->
  valid_binary prec32 emax32 v = true ->
  LoadWeight v p = Some q -> q <> -32768 ->
  LoadWeight (SFopp v) p = Some (- q).
Proof.
  intros Hp Hv Hload Hq.
  apply (LoadWeight_Some v p q Hp Hv) in Hload as (Hfin & Hfit & ->).
  destruct (precision_pow2 p Hp) as (k & Hk & ->).
  assert (0 <= k) by (destruct Hk; lia).
  rewrite <- (quantize_SFopp v k) by done.
  apply LoadWeight_quantize.
  - destruct Hk as [-> | ->]; [by left|by right].
  - by destruct v.
  - by destruct v.
  - rewrite quantize_SFopp by done. unfold in_int16 in *. lia.
Qed.

Lemma Qround_away_comp x y : (x == y)%Q -> Qround_away x = Qround_away y.
Proof.
  intros E. unfold Qround_away.
  assert (Hb : Qle_bool 0 x = Qle_bool 0 y).
  { destruct (Qle_bool 0 x) eqn:Hx, (Qle_bool 0 y) eqn:Hy; try done.
    - apply Qle_bool_iff in Hx. rewrite E in Hx. apply Qle_bool_iff in Hx. congruence.
    - apply Qle_bool_iff in Hy. rewrite <- E in Hy. apply Qle_bool_iff in Hy. congruence. }
  rewrite Hb. destruct (Qle_bool 0 y).
  - apply Qfloor_comp. by rewrite E.
  - apply Qceiling_comp. by rewrite E.
Qed.

Lemma Qround_away_Z z : Qround_away (inject_Z z) = z.
Proof.
  change (inject_Z z) with (z # 1). rewrite Qround_away_frac.
  change (Zpos 1) with 1. change (2 * 1) with 2.
  destruct (Z.leb_spec 0 z).
  - symmetry. apply Z.div_unique with 1; lia.
  - assert ((2 * - z + 1) / 2 = - z) as -> by (symmetry; apply Z.div_unique with 1; lia).
    lia.
Qed.

(** X12: the quantization is exact on its own grid.  A finite [float]
    whose value is [q / precision] for an integer [q] of the range of
    [int16_t] loads as [q]: dequantizing a stored weight and loading the
    quotient again gives the weight back. *)
Theorem LoadWeight_exact v p q :
  p = 32 \/ p = 512 ->
  valid_binary prec32 emax32 v = true -> is_finite v = true ->
  in_int16 q ->
  (SF2Q v == dequantize q p)%Q ->
  LoadWeight v p = Some q.
Proof.
  intros Hp Hv Hfin Hq Hval.
  assert (Hquant : quantize (SF2Q v) p = q).
  { unfold quantize. etrans; [|apply (Qround_away_Z q)].
    apply Qround_away_comp. rewrite Hval. unfold dequantize.
    field. destruct Hp as [-> | ->]; discriminate. }
  rewrite <- Hquant. apply LoadWeight_quantize; try done. by rewrite Hquant.
Qed.

(** ** LoadDefaultNN *)

Lemma read_bytes_inv E p n bs :
  read_bytes E p n = Some bs ->
  0 <= p /\ p + Z.of_nat n <= Z.of_nat (length E) /\ bs = take n (drop (Z.to_nat p) E).
Proof.
  unfold read_bytes. destruct (Z.leb_spec 0 p); [|discriminate].
  destruct (Z.leb_spec (p + Z.of_nat n) (Z.of_nat (length E))); [|discriminate].
  cbn. by intros [= <-].
Qed.

Lemma read_float_inv E p v :
  read_float E p = Some v ->
  0 <= p /\ p + 4 <= Z.of_nat (length E) /\ v = float_at E p.
Proof.
  unfold read_float, le_load. destruct (read_bytes E p 4) as [bs|] eqn:Hb; [|discriminate].
  apply read_bytes_inv in Hb as (Hp & Hl & ->). cbn. intros [= <-].
  split; [done|]. split; [lia|done].
Qed.

Lemma float_at_valid E p : valid_binary prec32 emax32 (float_at E p) = true.
Proof. apply float_of_bits_valid. Qed.

(** What a completed run of one loading loop says about the floats it read
    and the integers it stored. *)
Lemma load_weights_inv E p (n : nat) : forall data ws data',
  p = 32 \/ p = 512 ->
  load_weights E n data p = Some (ws, data') ->
  forall j, 0 <= j < Z.of_nat n -> quantizes16 (float_at E (data + 4 * j)) p.
Proof.
  induction n as [|n IH]; intros data ws data' Hp Hload j Hj; [lia|].
  cbn [load_weights] in Hload.
  destruct (read_float E data) as [v|] eqn:Hv; [|done]. cbn [mbind option_bind] in Hload.
  destruct (LoadWeight v p) as [w|] eqn:Hw; [|done]. cbn [mbind option_bind] in Hload.
  destruct (load_weights E n (data + 4) p) as [[ws1 d1]|] eqn:Hrec; [|done].
  apply read_float_inv in Hv as (_ & _ & ->).
  destruct (Z.eq_dec j 0) as [->|Hj0].
  - replace (data + 4 * 0) with data by lia.
    apply LoadWeight_Some in Hw as (Hfin & Hfit & _); [|done|apply float_at_valid].
    by split.
  - replace (data + 4 * j) with (data + 4 + 4 * (j - 1)) by lia.
    apply (IH (data + 4) ws1 d1 Hp Hrec). lia.
Qed.

Lemma load_weights_shape E p (n : nat) : forall data ws data',
  load_weights E n data p = Some (ws, data') ->
  length ws = n /\ Forall in_int16 ws.
Proof.
  induction n as [|n IH]; intros data ws data' Hload.
  - cbn in Hload. injection Hload as <- _. by split.
  - cbn [load_weights] in Hload.
    destruct (read_float E data) as [v|]; [|done]. cbn [mbind option_bind] in Hload.
    destruct (LoadWeight v p) as [w|] eqn:Hw; [|done]. cbn [mbind option_bind] in Hload.
    destruct (load_weights E n (data + 4) p) as [[ws1 d1]|] eqn:Hrec; [|done].
    cbn [mbind option_bind] in Hload. injection Hload as <- _.
    apply IH in Hrec as [Hlen Hall].
    apply double_to_int16_Some in Hw as [_ Hw].
    split; [cbn; by rewrite Hlen|by apply Forall_cons].
Qed.

Lemma load_weights_bound E p (n : nat) : forall data ws data',
  (0 < n)%nat ->
  load_weights E n data p = Some (ws, data') ->
  0 <= data /\ data + 4 * Z.of_nat n <= Z.of_nat (length E).
Proof.
  induction n as [|n IH]; intros data ws data' Hn Hload; [lia|].
  cbn [load_weights] in Hload.
  destruct (read_float E data) as [v|] eqn:Hv; [|done]. cbn [mbind option_bind] in Hload.
  destruct (LoadWeight v p) as [w|]; [|done]. cbn [mbind option_bind] in Hload.
  destruct (load_weights E n (data + 4) p) as [[ws1 d1]|] eqn:Hrec; [|done].
  apply read_float_inv in Hv as (H0 & Hl & _).
  destruct n as [|n']; [lia|].
  apply IH in Hrec as [_ Hrec]; lia.
Qed.

Lemma double_to_int32_Some r q :
  double_to_int32 r = Some q -> r = Some q /\ in_int32 q.
Proof.
  unfold double_to_int32. destruct r as [z|]; [|discriminate]. cbn.
  destruct (Z.leb_spec (-2147483648) z); [|discriminate].
  destruct (Z.leb_spec z 2147483647); [|discriminate].
  cbn. intros [= <-]. split; [done|]. unfold in_int32. lia.
Qed.

Lemma output_bias_inv v q :
  valid_binary prec32 emax32 v = true ->
  double_to_int32 (c_round (fmul v (float_of_int QUANTIZATION_PRECISION_OUT))) = Some q ->
  quantizes32 v 512.
Proof.
  intros Hv Hload. apply double_to_int32_Some in Hload as [Hr Hq].
  destruct (is_finite v) eqn:Hfin.
  - split; [done|].
    destruct (c_round_fmul v 9 (or_intror eq_refl) Hv Hfin) as [E|[E _]];
      change (2 ^ 9) with 512 in E; change QUANTIZATION_PRECISION_OUT with 512 in Hr;
      rewrite E in Hr; [|discriminate].
    injection Hr as <-. done.
  - exfalso. destruct v as [s|s| |s m e]; try discriminate;
      vm_compute in Hr; discriminate.
Qed.

(** X13: the loader's behaviour is defined only on a complete resource of
    numbers that fit.  If [LoadDefaultNN] returns, the resource holds at
    least the 12 bytes of tag and hash and the
    [N_FEATURES * N_HIDDEN + N_HIDDEN + N_HIDDEN * 2 + 1] floats, every
    float of the three arrays is finite with a quantization in the range of
    [int16_t], and the float of the output bias is finite with a
    quantization in the range of [int32_t]. *)
Theorem LoadDefaultNN_defined_only_if E stdout G out :
  let nfw := N_FEATURES * N_HIDDEN in
  0 <= nfw -> 0 <= N_HIDDEN ->
  LoadDefaultNN E stdout = Some (G, out) ->
  resource_size <= Z.of_nat (length E)
  /\ (forall j, 0 <= j < nfw -> quantizes16 (resource_float E j) 32)
  /\ (forall j, 0 <= j < N_HIDDEN -> quantizes16 (resource_float E (nfw + j)) 32)
  /\ (forall j, 0 <= j < N_HIDDEN * 2 ->
        quantizes16 (resource_float E (nfw + N_HIDDEN + j)) 512)
  /\ quantizes32 (resource_float E (nfw + N_HIDDEN + N_HIDDEN * 2)) 512.
Proof.
  unfold resource_size, float_count, LoadDefaultNN. cbv zeta.
  generalize (N_FEATURES * N_HIDDEN). intros nfw Hnfw Hnh Hload.
  destruct (magic_mismatch E) as [mm|]; [|done]. cbn [mbind option_bind] in Hload.
  destruct (le_load E 4 8) as [hash|]; [|done]. cbn [mbind option_bind] in Hload.
  destruct (load_weights E _ (4 * 3) _) as [[fw d1]|] eqn:H1; [|done].
  apply load_weights_data in H1 as Hd1. cbn [mbind option_bind] in Hload.
  destruct (load_weights E _ d1 _) as [[hb d2]|] eqn:H2; [|done].
  apply load_weights_data in H2 as Hd2. cbn [mbind option_bind] in Hload.
  destruct (load_weights E _ d2 _) as [[hw d3]|] eqn:H3; [|done].
  apply load_weights_data in H3 as Hd3. cbn [mbind option_bind] in Hload.
  destruct (read_float E d3) as [v|] eqn:Hv; [|done]. cbn [mbind option_bind] in Hload.
  destruct (double_to_int32 _) as [ob|] eqn:Hob; [|done].
  apply read_float_inv in Hv as (_ & Hlen & ->).
  split; [lia|]. split; [|split; [|split]].
  - intros j Hj. unfold resource_float.
    replace (12 + 4 * j) with (4 * 3 + 4 * j) by lia.
    apply (load_weights_inv E 32 _ _ _ _ (or_introl eq_refl) H1). lia.
  - intros j Hj. unfold resource_float.
    replace (12 + 4 * (nfw + j)) with (d1 + 4 * j) by lia.
    apply (load_weights_inv E 32 _ _ _ _ (or_introl eq_refl) H2). lia.
  - intros j Hj. unfold resource_float.
    replace (12 + 4 * (nfw + N_HIDDEN + j)) with (d2 + 4 * j) by lia.
    apply (load_weights_inv E 512 _ _ _ _ (or_intror eq_refl) H3). lia.
  - unfold resource_float.
    replace (12 + 4 * (nfw + N_HIDDEN + N_HIDDEN * 2)) with d3 by lia.
    apply (output_bias_inv _ ob); [apply float_at_valid|done].
Qed.

Lemma byte_val_bound b : 0 <= byte_val b < 2 ^ 8.
Proof.
  unfold byte_val. pose proof (Byte.to_N_bounded b) as Hb.
  change (2 ^ 8) with 256. lia.
Qed.

Lemma lor_bound a b n :
  0 <= n -> 0 <= a < 2 ^ n -> 0 <= b < 2 ^ n -> 0 <= Z.lor a b < 2 ^ n.
Proof.
  intros Hn Ha Hb.
  assert (H0 : 0 <= Z.lor a b) by (apply Z.lor_nonneg; lia).
  split; [done|].
  destruct (Z.eq_dec (Z.lor a b) 0) as [E|Hne]; [rewrite E; lia|].
  destruct (Z.eq_dec n 0) as [->|Hn0].
  { change (2 ^ 0) with 1 in *. assert (a = 0) as -> by lia. assert (b = 0) as -> by lia.
    done. }
  apply Z.log2_lt_pow2; [lia|].
  rewrite Z.log2_lor by lia.
  apply Z.max_lub_lt.
  - destruct (Z.eq_dec a 0) as [->|]; [cbn; lia|]. apply Z.log2_lt_pow2; lia.
  - destruct (Z.eq_dec b 0) as [->|]; [cbn; lia|]. apply Z.log2_lt_pow2; lia.
Qed.

Lemma little_endian_bound bs : 0 <= little_endian bs < 2 ^ (8 * Z.of_nat (length bs)).
Proof.
  induction bs as [|b bs IH]; [cbn; lia|].
  cbn [little_endian length].
  replace (8 * Z.of_nat (S (length bs))) with (8 * Z.of_nat (length bs) + 8) by lia.
  pose proof (byte_val_bound b) as Hb.
  assert (Hpow : 2 ^ 8 <= 2 ^ (8 * Z.of_nat (length bs) + 8))
    by (apply Z.pow_le_mono_r; lia).
  apply lor_bound; [lia|lia|].
  rewrite Z.shiftl_mul_pow2 by lia. rewrite Z.pow_add_r by lia. nia.
Qed.

(** A network that [LoadDefaultNN] returns is well formed.  The three
    arrays have their declared lengths [N_FEATURES * N_HIDDEN], [N_HIDDEN]
    and [N_HIDDEN * 2], each of their entries lies in the range of
    [int16_t], the output bias in the range of [int32_t], and the hash is
    an unsigned 64-bit value. *)
Lemma LoadDefaultNN_well_formed E stdout G out :
  LoadDefaultNN E stdout = Some (G, out) ->
  length (FEATURE_WEIGHTS G) = Z.to_nat (N_FEATURES * N_HIDDEN)
  /\ length (HIDDEN_BIASES G) = Z.to_nat N_HIDDEN
  /\ length (HIDDEN_WEIGHTS G) = Z.to_nat (N_HIDDEN * 2)
  /\ Forall in_int16 (FEATURE_WEIGHTS G)
  /\ Forall in_int16 (HIDDEN_BIASES G)
  /\ Forall in_int16 (HIDDEN_WEIGHTS G)
  /\ in_int32 (OUTPUT_BIAS G)
  /\ 0 <= DEFAULT_NN_HASH G < 2 ^ 64.
Proof.
  intros Hload. unfold LoadDefaultNN in Hload.
  destruct (magic_mismatch E) as [mm|]; [|done]. cbn [mbind option_bind] in Hload.
  destruct (le_load E 4 8) as [hash|] eqn:Hh; [|done]. cbn [mbind option_bind] in Hload.
  destruct (load_weights E _ (4 * 3) _) as [[fw d1]|] eqn:H1; [|done].
  cbn [mbind option_bind] in Hload.
  destruct (load_weights E _ d1 _) as [[hb d2]|] eqn:H2; [|done].
  cbn [mbind option_bind] in Hload.
  destruct (load_weights E _ d2 _) as [[hw d3]|] eqn:H3; [|done].
  cbn [mbind option_bind] in Hload.
  destruct (read_float E d3) as [v|]; [|done]. cbn [mbind option_bind] in Hload.
  destruct (double_to_int32 _) as [ob|] eqn:Hob; [|done].
  cbn [mbind option_bind] in Hload. injection Hload as <- _.
  cbn [FEATURE_WEIGHTS HIDDEN_BIASES HIDDEN_WEIGHTS OUTPUT_BIAS DEFAULT_NN_HASH].
  apply load_weights_shape in H1 as [L1 F1].
  apply load_weights_shape in H2 as [L2 F2].
  apply load_weights_shape in H3 as [L3 F3].
  apply double_to_int32_Some in Hob as [_ Hob].
  do 7 (split; [done|]).
  unfold le_load in Hh. destruct (read_bytes E 4 8) as [bs|] eqn:Hb; [|done].
  apply read_bytes_inv in Hb as (_ & Hlen & ->). cbn in Hh. injection Hh as <-.
  pose proof (little_endian_bound (take 8 (drop 4 E))) as Hle.
  rewrite length_take, length_drop in Hle.
  replace (8 * Z.of_nat (8 `min` (length E - 4))) with 64 in Hle by lia. done.
Qed.

Lemma read_bytes_app E X p n :
  0 <= p -> p + Z.of_nat n <= Z.of_nat (length E) ->
  read_bytes (E ++ X) p n = read_bytes E p n.
Proof.
  intros Hp Hl. rewrite !read_bytes_Some by (rewrite ?length_app; lia).
  f_equal. rewrite drop_app_le by lia.
  apply take_app_le. rewrite length_drop. lia.
Qed.

Lemma read_float_app E X p :
  0 <= p -> p + 4 <= Z.of_nat (length E) ->
  read_float (E ++ X) p = read_float E p.
Proof.
  intros Hp Hl. unfold read_float, le_load. by rewrite read_bytes_app by (done || lia).
Qed.

Lemma load_weights_app E X precision (n : nat) : forall data,
  0 <= data -> data + 4 * Z.of_nat n <= Z.of_nat (length E) ->
  load_weights (E ++ X) n data precision = load_weights E n data precision.
Proof.
  induction n as [|n IH]; intros data Hd Hl; [done|].
  cbn [load_weights]. rewrite read_float_app by lia.
  destruct (read_float E data) as [v|]; [|done]. cbn [mbind option_bind].
  destruct (LoadWeight v precision) as [w|]; [|done]. cbn [mbind option_bind].
  rewrite IH by lia. done.
Qed.

Lemma has_magic_app E X : (4 <= length E)%nat -> has_magic (E ++ X) = has_magic E.
Proof.
  intros Hl. do 4 (destruct E as [|? E]; [cbn in Hl; lia|]). done.
Qed.

(** X14: the loader reads the tag, the hash and the floats of the four
    parameter groups and nothing behind them: bytes that follow the first
    [12 + 4 * (N_FEATURES * N_HIDDEN + N_HIDDEN + N_HIDDEN * 2 + 1)] bytes
    of the resource change neither the network loaded nor the line
    printed. *)
Theorem LoadDefaultNN_trailing_bytes E extra stdout :
  0 <= N_FEATURES * N_HIDDEN -> 0 <= N_HIDDEN ->
  resource_size <= Z.of_nat (length E) ->
  LoadDefaultNN (E ++ extra) stdout = LoadDefaultNN E stdout.
Proof.
  unfold resource_size, float_count, LoadDefaultNN.
  generalize (N_FEATURES * N_HIDDEN). intros nfw Hnfw Hnh Hlen.
  rewrite !magic_mismatch_spec by (rewrite ?length_app; lia).
  rewrite has_magic_app by lia. cbn [mbind option_bind].
  unfold le_load. rewrite read_bytes_app by lia.
  destruct (read_bytes E 4 8) as [hash|]; [|done].
  cbn [fmap option_fmap option_map mbind option_bind].
  rewrite load_weights_app by lia.
  destruct (load_weights E _ (4 * 3) _) as [[fw d1]|] eqn:H1; [|done].
  apply load_weights_data in H1 as Hd1. cbn [mbind option_bind].
  rewrite load_weights_app by lia.
  destruct (load_weights E _ d1 _) as [[hb d2]|] eqn:H2; [|done].
  apply load_weights_data in H2 as Hd2. cbn [mbind option_bind].
  rewrite load_weights_app by lia.
  destruct (load_weights E _ d2 _) as [[hw d3]|] eqn:H3; [|done].
  apply load_weights_data in H3 as Hd3. cbn [mbind option_bind].
  rewrite read_float_app by lia. done.
Qed.

(** ** Freedom from overflow *)

Lemma Zsum_abs_bound {A} (f g : A -> Z) (c : Z) (l : list A) :
  (forall x, Z.abs (f x) <= c * g x) ->
  Z.abs (Zsum (f <$> l)) <= c * Zsum (g <$> l).
Proof.
  intros Hfg. induction l as [|x l IH]; [cbn; lia|].
  rewrite !fmap_cons, !Zsum_cons. specialize (Hfg x). lia.
Qed.

Lemma relu_dot_bound G a off :
  Forall in_int16 a ->
  Z.abs (relu_dot G a off)
  <= 32767 * Zsum ((fun i => Z.abs (rd (HIDDEN_WEIGHTS G) (i + off))) <$> seqZ 0 N_HIDDEN).
Proof.
  intros Ha. unfold relu_dot. apply Zsum_abs_bound. intros i.
  pose proof (rd_in_int16 a i Ha) as [Hlo Hhi].
  assert (Hm : 0 <= max (rd a i) 0 <= 32767).
  { unfold max. destruct (Z.gtb_spec (rd a i) 0); lia. }
  rewrite Z.abs_mul, (Z.abs_eq (max _ _)) by lia.
  apply Z.mul_le_mono_nonneg_r; [apply Z.abs_nonneg|lia].
Qed.

Lemma weight_mass_halves G :
  0 <= N_HIDDEN ->
  weight_mass G
  = Zsum ((fun i => Z.abs (rd (HIDDEN_WEIGHTS G) (i + 0))) <$> seqZ 0 N_HIDDEN)
    + Zsum ((fun i => Z.abs (rd (HIDDEN_WEIGHTS G) (i + N_HIDDEN))) <$> seqZ 0 N_HIDDEN).
Proof.
  intros Hn. unfold weight_mass.
  replace (N_HIDDEN * 2) with (N_HIDDEN + N_HIDDEN) by lia.
  rewrite seqZ_app, fmap_app, Zsum_app by done. f_equal.
  - apply f_equal, list_fmap_ext. intros n i _. by rewrite Z.add_0_r.
  - rewrite Z.add_0_l. rewrite <- (Z.add_0_r N_HIDDEN) at 1.
    rewrite <- (fmap_add_seqZ N_HIDDEN 0 N_HIDDEN), <- list_fmap_compose.
    apply f_equal, list_fmap_ext. intros n i _. cbn. f_equal. f_equal. lia.
Qed.

Lemma output_total_bound G stm xstm :
  Forall in_int16 stm -> Forall in_int16 xstm ->
  Z.abs (output_total G stm xstm) <= 32 * Z.abs (OUTPUT_BIAS G) + 32767 * weight_mass G.
Proof.
  intros Hs Hx. unfold output_total, QUANTIZATION_PRECISION_IN.
  pose proof (relu_dot_bound G stm 0 Hs) as H0.
  pose proof (relu_dot_bound G xstm N_HIDDEN Hx) as H1.
  destruct (Z.le_gt_cases 0 N_HIDDEN) as [Hn|Hn].
  - rewrite weight_mass_halves by done. lia.
  - unfold weight_mass. rewrite (seqZ_nil 0 N_HIDDEN) in H0, H1 by lia.
    rewrite (seqZ_nil 0 (N_HIDDEN * 2)) by lia. cbn in *. lia.
Qed.

(** X15: a bound on the weights alone rules the overflow out.  If 32 times
    the magnitude of the output bias plus 32767 times the sum of the
    magnitudes of the output weights is at most [INT_MAX], then for all
    accumulators of 16-bit lanes the score is the exact total divided by
    32 * 512, in every build whose kernel covers the hidden width. *)
Theorem OutputLayer_no_overflow b G stm xstm :
  32 * Z.abs (OUTPUT_BIAS G) + 32767 * weight_mass G <= 2147483647 ->
  whole_rounds b ->
  Forall in_int16 stm -> Forall in_int16 xstm ->
  in_int32 (output_total G stm xstm)
  /\ OutputLayer b G stm xstm
     = output_total G stm xstm ÷ (QUANTIZATION_PRECISION_IN * QUANTIZATION_PRECISION_OUT).
Proof.
  intros Hmass Hb Hs Hx.
  pose proof (output_total_bound G stm xstm Hs Hx) as Hbound.
  assert (Hfit : in_int32 (output_total G stm xstm)) by (unfold in_int32; lia).
  split; [done|].
  assert (Htotal : OutputLayer b G stm xstm
                   = to_int32 (output_total G stm xstm)
                       ÷ QUANTIZATION_PRECISION_IN ÷ QUANTIZATION_PRECISION_OUT).
  { destruct b; cbn [OutputLayer whole_rounds] in *.
    - by apply OutputLayer_avx2_total.
    - by apply OutputLayer_sse_total.
    - apply OutputLayer_scalar_total. }
  rewrite Htotal, to_int32_id by done. by apply Z.quot_quot.
Qed.
End NN.

(** * The statements on the example network *)

Example ex_refresh :
  RefreshAccumulator 16 ex_KING ex_PieceBB ex_FeatureIdx ex_weights [] ex_board 0
  = replicate 16 17.
Proof. reflexivity. Qed.

Example ex_predict :
  (Predict 16 ex_KING ex_PieceBB ex_FeatureIdx Scalar ex_weights ex_board [] []).1 = 2.
Proof. reflexivity. Qed.

Example ex_load :
  LoadDefaultNN 1 1 (ex_resource ex_other_tag) []
  = Some ({| FEATURE_WEIGHTS := [48];
             HIDDEN_BIASES := [-8];
             HIDDEN_WEIGHTS := [256; -512];
             OUTPUT_BIAS := 1024;
             DEFAULT_NN_HASH := 0x0807060504030201 |},
          [nonstandard_net_message]).
Proof. reflexivity. Qed.

Lemma ex_board_occupied : enumerates_occupied ex_board [60; 4].
Proof.
  split.
  - apply NoDup_cons. split; [|apply NoDup_singleton].
    intros H%list_elem_of_singleton. discriminate H.
  - intros sq.
    etrans; [|apply (elem_of_bits (OccBB ex_board BOTH) sq); vm_compute; congruence].
    change (bits (OccBB ex_board BOTH)) with [4; 60].
    rewrite !elem_of_cons. pose proof (elem_of_nil sq). tauto.
Qed.

Lemma RefreshAccumulator_feature_sum_witness :
  RefreshAccumulator 16 ex_KING ex_PieceBB ex_FeatureIdx ex_weights [] ex_board 0
  = feature_sum 16 ex_weights (board_features ex_KING ex_PieceBB ex_FeatureIdx ex_board 0 [60; 4]).
Proof.
  destruct (RefreshAccumulator_feature_sum 16 ex_KING ex_PieceBB ex_FeatureIdx
              ex_weights [] ex_board 0 [60; 4]) as [H _].
  - vm_compute. split; [discriminate|reflexivity].
  - apply Forall_forall. intros x Hx. apply elem_of_replicate in Hx as [-> _].
    vm_compute. split; discriminate.
  - exact ex_board_occupied.
  - exact H.
Defined.

Lemma ex_board_slot : valid_slot ex_board 0 (ply ex_board).
Proof.
  split; [done|]. split; [done|].
  exists [replicate 16 13; replicate 16 0]. split; [reflexivity|]. cbn. lia.
Defined.

Lemma ApplyUpdates_feature_sum_witness :
  acc_at (ApplyUpdates 16 ex_weights ex_board 0 ex_move).2 0 (ply ex_board)
  = feature_sum 16 ex_weights [2; 0].
Proof.
  destruct (ApplyUpdates_feature_sum 16 ex_KING ex_PieceBB ex_FeatureIdx
              ex_weights ex_board 0 ex_move [1; 0] [2; 0]) as [H _].
  - left. vm_compute. discriminate.
  - exact ex_board_slot.
  - reflexivity.
  - apply perm_swap.
  - exact H.
Defined.

Lemma ApplyUpdates_no_removal_witness :
  acc_at (ApplyUpdates 16 ex_weights ex_board 0 ex_addition_only).2 0 (ply ex_board)
  = acc_at ex_board 0 (ply ex_board - 1).
Proof.
  apply (ApplyUpdates_no_removal 16 ex_weights ex_board 0 ex_addition_only).
  - reflexivity.
  - exact ex_board_slot.
  - reflexivity.
Defined.

Lemma OutputLayer_builds_agree_witness :
  OutputLayer 16 AVX2 ex_weights (replicate 16 17) (replicate 16 (-5))
  = OutputLayer 16 Scalar ex_weights (replicate 16 17) (replicate 16 (-5))
  /\ OutputLayer 16 SSE ex_weights (replicate 16 17) (replicate 16 (-5))
     = OutputLayer 16 Scalar ex_weights (replicate 16 17) (replicate 16 (-5)).
Proof.
  apply (OutputLayer_builds_agree 16 ex_weights (replicate 16 17) (replicate 16 (-5))).
  exists 1. reflexivity.
Defined.

Lemma OutputLayer_quotient_witness :
  OutputLayer 16 Scalar ex_weights (replicate 16 17) (replicate 16 15)
  = output_total 16 ex_weights (replicate 16 17) (replicate 16 15)
    ÷ (QUANTIZATION_PRECISION_IN * QUANTIZATION_PRECISION_OUT).
Proof.
  apply (OutputLayer_quotient 16 ex_weights (replicate 16 17) (replicate 16 15)).
  vm_compute. split; discriminate.
Defined.

(** C3, as stated, fails when the total leaves the range of [int]: sixteen
    lanes of 32767 against weights of 32767 total 17178820624, whose quotient
    is 1048512, and the kernel returns -63. *)
Lemma OutputLayer_overflow_counterexample :
  OutputLayer 16 Scalar ex_saturated ex_top (replicate 16 0)
  <> output_total 16 ex_saturated ex_top (replicate 16 0)
     ÷ (QUANTIZATION_PRECISION_IN * QUANTIZATION_PRECISION_OUT).
Proof. vm_compute. discriminate. Qed.

Example ex_overflow :
  output_total 16 ex_saturated ex_top (replicate 16 0) = 17178820624
  /\ output_total 16 ex_saturated ex_top (replicate 16 0)
       ÷ (QUANTIZATION_PRECISION_IN * QUANTIZATION_PRECISION_OUT) = 1048512
  /\ OutputLayer 16 Scalar ex_saturated ex_top (replicate 16 0) = -63
  /\ OutputLayer 16 AVX2 ex_saturated ex_top (replicate 16 0) = -63
  /\ OutputLayer 16 SSE ex_saturated ex_top (replicate 16 0) = -63.
Proof. repeat split. Qed.

Lemma quantization_error_witness :
  exists q, LoadWeight (float_of_bits 0x3fc00000) 32 = Some q
    /\ q = quantize (SF2Q (float_of_bits 0x3fc00000)) 32
    /\ (Qabs (dequantize q 32 - SF2Q (float_of_bits 0x3fc00000)) <= 1 / (2 * inject_Z 32))%Q.
Proof.
  apply (quantization_error (float_of_bits 0x3fc00000) 32).
  - left. reflexivity.
  - reflexivity.
  - reflexivity.
  - vm_compute. split; discriminate.
Defined.


Lemma LoadDefaultNN_layout_witness :
  exists G out,
    LoadDefaultNN 1 1 (ex_resource ex_standard_tag) [] = Some (G, out)
    /\ FEATURE_WEIGHTS G
       = (fun j => quantize (SF2Q (resource_float (ex_resource ex_standard_tag) j)) 32)
           <$> seqZ 0 (1 * 1)
    /\ HIDDEN_BIASES G
       = (fun j => quantize (SF2Q (resource_float (ex_resource ex_standard_tag) (1 * 1 + j))) 32)
           <$> seqZ 0 1
    /\ HIDDEN_WEIGHTS G
       = (fun j => quantize (SF2Q (resource_float (ex_resource ex_standard_tag)
                                     (1 * 1 + 1 + j))) 512)
           <$> seqZ 0 (1 * 2)
    /\ OUTPUT_BIAS G
       = quantize (SF2Q (resource_float (ex_resource ex_standard_tag) (1 * 1 + 1 + 1 * 2))) 512
    /\ DEFAULT_NN_HASH G = resource_hash (ex_resource ex_standard_tag).
Proof.
  apply (LoadDefaultNN_layout 1 1 (ex_resource ex_standard_tag) []).
  - lia.
  - lia.
  - vm_compute. discriminate.
  - intros j Hj. assert (j = 0) as -> by lia.
    split; [reflexivity|]. vm_compute. split; discriminate.
  - intros j Hj. assert (j = 0) as -> by lia.
    split; [reflexivity|]. vm_compute. split; discriminate.
  - intros j Hj. assert (j = 0 \/ j = 1) as [-> | ->] by lia;
      (split; [reflexivity|]; vm_compute; split; discriminate).
  - split; [reflexivity|]. vm_compute. split; discriminate.
Defined.

(** * The further properties on the example network *)

Lemma ex_history_slot p q : p = 0 \/ p = 1 -> 0 <= q < 3 -> valid_slot ex_history p q.
Proof.
  intros Hp Hq. split; [lia|]. split; [lia|].
  destruct Hp as [-> | ->].
  - exists [replicate 16 16; replicate 16 0; replicate 16 0]. split; [reflexivity|]. cbn. lia.
  - exists [replicate 16 14; replicate 16 0; replicate 16 0]. split; [reflexivity|]. cbn. lia.
Defined.

Lemma ex_int16_replicate n x : in_int16 x -> Forall in_int16 (replicate n x).
Proof. apply Forall_replicate. Defined.

Lemma ApplyUpdates_undo_witness :
  acc_at (ApplyUpdates 16 ex_weights
            (with_ply (ApplyUpdates 16 ex_weights ex_history 0 ex_move).2 2)
            0 (undo_update ex_move)).2 0 2
  = acc_at ex_history 0 0.
Proof.
  apply (ApplyUpdates_undo 16 ex_weights ex_history 0 ex_move).
  - cbn. lia.
  - cbn. lia.
  - apply ex_history_slot; [by left|cbn; lia].
  - apply ex_history_slot; [by left|cbn; lia].
  - split; [reflexivity|]. apply ex_int16_replicate. vm_compute. split; discriminate.
Defined.

Lemma ApplyUpdates_perspectives_commute_witness :
  (ApplyUpdates 16 ex_weights (ApplyUpdates 16 ex_weights ex_history 0 ex_move).2 1 ex_reply).2
  = (ApplyUpdates 16 ex_weights (ApplyUpdates 16 ex_weights ex_history 1 ex_reply).2 0 ex_move).2.
Proof.
  apply (ApplyUpdates_perspectives_commute 16 ex_weights ex_history 0 1 ex_move ex_reply).
  discriminate.
Defined.

Lemma ApplyUpdates_net_change_witness :
  acc_at (ApplyUpdates 16 ex_weights ex_history 0 ex_move).2 0 (ply ex_history)
  = acc_at (ApplyUpdates 16 ex_weights ex_history 0 ex_detour).2 0 (ply ex_history).
Proof.
  destruct (ApplyUpdates_net_change 16 ex_weights ex_history 0 ex_move) as [H _].
  - cbn. lia.
  - apply ex_history_slot; [by left|cbn; lia].
  - split; [reflexivity|]. apply ex_int16_replicate. vm_compute. split; discriminate.
  - apply (H ex_detour).
    + cbn. lia.
    + vm_compute. apply perm_skip, perm_swap.
Defined.

Lemma OutputLayer_sse_scalar_witness :
  OutputLayer 8 SSE ex_weights (replicate 8 17) (replicate 8 (-5))
  = OutputLayer 8 Scalar ex_weights (replicate 8 17) (replicate 8 (-5)).
Proof.
  apply (OutputLayer_sse_scalar 8 ex_weights (replicate 8 17) (replicate 8 (-5))).
  exists 1. reflexivity.
Defined.

Lemma incremental_score_is_Predict_witness :
  OutputLayer 16 AVX2 ex_weights
    (acc_at (ApplyUpdates 16 ex_weights
               (ApplyUpdates 16 ex_weights ex_history 0 ex_move).2 1 ex_reply).2 0 1)
    (acc_at (ApplyUpdates 16 ex_weights
               (ApplyUpdates 16 ex_weights ex_history 0 ex_move).2 1 ex_reply).2 1 1)
  = (Predict 16 ex_KING ex_PieceBB ex_FeatureIdx AVX2 ex_weights ex_history [] []).1.
Proof.
  apply (incremental_score_is_Predict 16 ex_KING ex_PieceBB ex_FeatureIdx AVX2 ex_weights
           ex_history ex_move ex_reply [1; 3] [2; 0] [60; 4] [] []).
  - discriminate.
  - vm_compute. split; [discriminate|reflexivity].
  - apply ex_int16_replicate. vm_compute. split; discriminate.
  - exact ex_board_occupied.
  - cbn. lia.
  - cbn. lia.
  - apply ex_history_slot; [by left|cbn; lia].
  - apply ex_history_slot; [by right|cbn; lia].
  - reflexivity.
  - reflexivity.
  - unfold describes_change. vm_compute.
    etrans; [apply perm_skip, perm_swap|apply perm_swap].
  - unfold describes_change. vm_compute.
    etrans; [apply perm_skip, perm_swap|apply perm_swap].
Defined.

Lemma LoadWeight_defined_iff_witness :
  LoadWeight (float_of_bits 0x3fc00000) 32 = Some 48
  <-> is_finite (float_of_bits 0x3fc00000) = true
      /\ in_int16 (quantize (SF2Q (float_of_bits 0x3fc00000)) 32)
      /\ 48 = quantize (SF2Q (float_of_bits 0x3fc00000)) 32.
Proof.
  apply (LoadWeight_defined_iff (float_of_bits 0x3fc00000) 32 48).
  - left. reflexivity.
  - reflexivity.
Defined.

Lemma LoadWeight_odd_witness :
  LoadWeight (SFopp (float_of_bits 0x3fc00000)) 32 = Some (- 48).
Proof.
  apply (LoadWeight_odd (float_of_bits 0x3fc00000) 32 48).
  - left. reflexivity.
  - reflexivity.
  - reflexivity.
  - discriminate.
Defined.

Lemma LoadWeight_exact_witness :
  LoadWeight (float_of_bits 0x3fc00000) 32 = Some 48.
Proof.
  apply (LoadWeight_exact (float_of_bits 0x3fc00000) 32 48).
  - left. reflexivity.
  - reflexivity.
  - reflexivity.
  - vm_compute. split; discriminate.
  - vm_compute. reflexivity.
Defined.

Lemma LoadDefaultNN_defined_only_if_witness :
  resource_size 1 1 <= Z.of_nat (length (ex_resource ex_standard_tag))
  /\ quantizes16 (resource_float (ex_resource ex_standard_tag) 0) 32
  /\ quantizes32 (resource_float (ex_resource ex_standard_tag) 4) 512.
Proof.
  destruct (LoadDefaultNN_defined_only_if 1 1 (ex_resource ex_standard_tag) [] ex_network [])
    as (H1 & H2 & _ & _ & H5).
  - lia.
  - lia.
  - reflexivity.
  - split; [exact H1|]. split; [apply H2; lia|exact H5].
Defined.

Lemma LoadDefaultNN_trailing_bytes_witness :
  LoadDefaultNN 1 1 (ex_resource ex_standard_tag ++ [x00; xff]) []
  = LoadDefaultNN 1 1 (ex_resource ex_standard_tag) [].
Proof.
  apply (LoadDefaultNN_trailing_bytes 1 1 (ex_resource ex_standard_tag) [x00; xff] []).
  - lia.
  - lia.
  - vm_compute. discriminate.
Defined.

Lemma OutputLayer_no_overflow_witness :
  in_int32 (output_total 16 ex_weights (replicate 16 17) (replicate 16 15))
  /\ OutputLayer 16 AVX2 ex_weights (replicate 16 17) (replicate 16 15)
     = output_total 16 ex_weights (replicate 16 17) (replicate 16 15)
       ÷ (QUANTIZATION_PRECISION_IN * QUANTIZATION_PRECISION_OUT).
Proof.
  apply (OutputLayer_no_overflow 16 AVX2 ex_weights (replicate 16 17) (replicate 16 15)).
  - vm_compute. discriminate.
  - exists 1. reflexivity.
  - apply ex_int16_replicate. vm_compute. split; discriminate.
  - apply ex_int16_replicate. vm_compute. split; discriminate.
Defined.
